(** * KITSLICK: the ephemeral-snap lifecycle of [server-pg.js]

    A shallow embedding of the upload transaction, the expiry reaper and the
    read endpoints of [src/server-pg.js] over the tables of [src/db-pg.js],
    followed by the properties of the specification that concern them. *)

From Stdlib Require Import ZArith NArith Lia.
From Stdlib Require Import Sorting.Sorted Sorting.Permutation.
From stdpp Require Import base option list sorting gmap strings.

Local Open Scope Z_scope.

(** ** JavaScript strings *)

(** A JavaScript string is a sequence of UTF-16 code units.  The two regular
    expressions of the server carry no [u] flag, hence they match code unit
    by code unit. *)
Module JsString.

Definition code_unit := N.
Definition js_string := list code_unit.

(** ASCII literals, for readable examples. *)
Definition lit (s : string) : js_string :=
  map Ascii.N_of_ascii (String.list_ascii_of_string s).

Definition sharp : code_unit := 35%N.
Definition comma : code_unit := 44%N.

(** The class [\s]: ECMAScript WhiteSpace and LineTerminator. *)
Definition is_space (c : code_unit) : bool :=
  ((9 <=? c) && (c <=? 13)             (* TAB LF VT FF CR *)
   || (c =? 32)                        (* SPACE *)
   || (c =? 160)                       (* U+00A0 *)
   || (c =? 5760)                      (* U+1680 *)
   || ((8192 <=? c) && (c <=? 8202))   (* U+2000 .. U+200A *)
   || (c =? 8232) || (c =? 8233)       (* U+2028, U+2029 *)
   || (c =? 8239) || (c =? 8287)       (* U+202F, U+205F *)
   || (c =? 12288)                     (* U+3000 *)
   || (c =? 65279))%N.                 (* U+FEFF *)

(** The class [[\s,]]. *)
Definition is_space_or_comma (c : code_unit) : bool :=
  is_space c || (c =? comma)%N.

(** [s.split(/[C]+/)] for a character class [C] given as [sep].

    [cur] is the token being read, in reverse; [in_sep] tells that the
    previous code unit belonged to a separator run, which the greedy [+] has
    already consumed.  A leading or trailing separator run yields an empty
    string, and the empty input yields one empty string, as
    [String.prototype.split] does for a pattern that cannot match the empty
    string. *)
Fixpoint split_go (sep : code_unit -> bool) (cur : js_string) (in_sep : bool)
    (s : js_string) : list js_string :=
  match s with
  | [] => [rev cur]
  | c :: s' =>
      if sep c then
        if in_sep then split_go sep [] true s'
        else rev cur :: split_go sep [] true s'
      else split_go sep (c :: cur) false s'
  end.

Definition split (sep : code_unit -> bool) (s : js_string) : list js_string :=
  split_go sep [] false s.

(** [tag.startsWith('#')] *)
Definition startsWith_sharp (tag : js_string) : bool :=
  match tag with
  | c :: _ => (c =? sharp)%N
  | [] => false
  end.

(** A JavaScript string in a boolean position: only [''] is falsy. *)
Definition truthy (s : js_string) : bool :=
  match s with [] => false | _ :: _ => true end.

End JsString.
Export JsString.

(** ** The two hashtag tokenizers *)

(** POST /api/snaps, line 370:
    [hashtags.split(/[\s,]+/).filter(tag => tag.startsWith('#'))] *)
Definition upload_tags (hashtags : js_string) : list js_string :=
  List.filter startsWith_sharp (split is_space_or_comma hashtags).

(** GET /api/feed, line 516:
    [snap.hashtags.split(/\s+/).filter(tag => tag.startsWith('#'))] *)
Definition fallback_tags (hashtags : js_string) : list js_string :=
  List.filter startsWith_sharp (split is_space hashtags).

(** ** The tables *)

Abbreviation Id := N (only parsing).          (* a UUID, generated by the database *)
(** Milliseconds since the epoch, the grain of a JavaScript Date.  A
    TIMESTAMPTZ column keeps microseconds, which the Date of a response
    drops; the tables are taken at whole milliseconds. *)
Abbreviation Timestamp := Z (only parsing).
Abbreviation Bytes := (list N) (only parsing).

Definition msPerHour : Z := 3600000.
Definition TTL : Z := 12 * msPerHour.          (* INTERVAL '12 hours' *)

(** [`/api/snaps/image/${Date.now()}-${req.file.originalname}`] *)
Record ImageUrl := {
  url_stamp : Z;
  url_name : js_string
}.

(** Table [users] of [db-pg.js]. *)
Record UserRow := {
  u_id : Id;
  u_username : js_string;
  u_email : js_string;
  u_password_hash : js_string;
  u_profile_picture_url : option js_string;
  u_is_active : bool                         (* DEFAULT true *)
}.

(** Table [snaps] of [db-pg.js], with the columns [hashtags], [image_data]
    and [mime_type] that [server-pg.js] reads and writes. *)
Record SnapRow := {
  s_id : Id;
  s_user_id : Id;
  s_image_url : ImageUrl;
  s_caption : option js_string;
  s_hashtags : option js_string;
  s_location : option js_string;
  s_image_data : Bytes;
  s_mime_type : js_string;
  s_created_at : Timestamp;                  (* NOT NULL DEFAULT NOW() *)
  s_expires_at : option Timestamp;
  s_view_count : Z;                          (* DEFAULT 0 *)
  s_is_public : bool                         (* DEFAULT true *)
}.

(** A row of [snaps_hashtags]: [(snap_id, hashtag)]. *)
Definition TagRow := (Id * js_string)%type.

(** A table is a bag of rows; the list order is the physical order, which no
    query may rely on. *)
Record Db := {
  users : list UserRow;
  snaps : list SnapRow;
  snaps_hashtags : list TagRow
}.

Definition empty_db : Db :=
  {| users := []; snaps := []; snaps_hashtags := [] |}.

Definition set_snaps (d : Db) (l : list SnapRow) : Db :=
  {| users := users d; snaps := l; snaps_hashtags := snaps_hashtags d |}.

Definition set_tags (d : Db) (l : list TagRow) : Db :=
  {| users := users d; snaps := snaps d; snaps_hashtags := l |}.

Definition set_users (d : Db) (l : list UserRow) : Db :=
  {| users := l; snaps := snaps d; snaps_hashtags := snaps_hashtags d |}.

Definition tag_row_eqb (a b : TagRow) : bool :=
  (fst a =? fst b)%N && bool_decide (snd a = snd b).

(** Modelled from the spec: the declaration of [snaps_hashtags] is not in
    [db-pg.js] ("Create other tables (hashtags, likes, comments, etc.)...").
    The spec gives the pairs as "unique per pair", so that
    [INSERT ... ON CONFLICT DO NOTHING] skips a pair that is already there. *)
Definition insert_tag_on_conflict_do_nothing (row : TagRow) (d : Db) : Db :=
  if existsb (tag_row_eqb row) (snaps_hashtags d) then d
  else set_tags d (snaps_hashtags d ++ [row]).

(** Modelled from the spec: the same missing declaration; the spec has the
    association rows "cascade-deleted when the parent snap is deleted". *)
Definition cascade_tags (deleted : list Id) (tags : list TagRow) : list TagRow :=
  List.filter (fun r => negb (existsb (N.eqb (fst r)) deleted)) tags.

(** ** Statements, faults and the world *)

(** Every statement sent to PostgreSQL may be refused (a constraint, a column
    width, a lost connection).  A fault plan says which ones are. *)
Inductive Stmt :=
| SBegin | SCommit | SRollback
| SSelectUser | SInsertSnap | SInsertTag (i : nat)
| SDeleteExpired
| SSelectImage | SSelectFeed | SSelectCount | SSelectSnap
| SSelectUserByName | SInsertUser.

#[global] Instance Stmt_eq_dec : EqDecision Stmt.
Proof. solve_decision. Defined.

Definition Faults := Stmt -> bool.
Definition no_faults : Faults := fun _ => false.

(** The plan that refuses exactly the statements of [l]. *)
Definition refusing (l : list Stmt) : Faults := fun s => bool_decide (s ∈ l).

Record SnapDto := {
  dto_id : Id;
  dto_username : js_string;
  dto_imageUrl : Id;                         (* `/api/snaps/image/${snapId}` *)
  dto_caption : option js_string;
  dto_location : js_string;
  dto_createdAt : Timestamp
}.

(** The committed database, the working copy of the transaction open on the
    checked-out client, the upload directory and the snaps broadcast by
    [emitNewSnap]. *)
Record World := {
  committed : Db;
  tx : option Db;
  files : gmap string Bytes;
  emitted : list SnapDto
}.

Definition set_committed (w : World) (d : Db) : World :=
  {| committed := d; tx := tx w; files := files w; emitted := emitted w |}.
Definition set_tx (w : World) (t : option Db) : World :=
  {| committed := committed w; tx := t; files := files w; emitted := emitted w |}.
Definition set_files (w : World) (f : gmap string Bytes) : World :=
  {| committed := committed w; tx := tx w; files := f; emitted := emitted w |}.
Definition add_emitted (w : World) (s : SnapDto) : World :=
  {| committed := committed w; tx := tx w; files := files w;
     emitted := emitted w ++ [s] |}.

(** ** A state monad with exceptions and early return *)

Inductive Outcome (R A : Type) :=
| Ok (a : A)              (* normal completion *)
| Thrown                  (* an exception propagates *)
| Returned (r : R).       (* [return r] out of the enclosing function *)
Arguments Ok {R A} a.
Arguments Thrown {R A}.
Arguments Returned {R A} r.

Definition M (R A : Type) : Type := World -> Outcome R A * World.

Definition ret {R A} (a : A) : M R A := fun w => (Ok a, w).
Definition throw {R A} : M R A := fun w => (Thrown, w).
Definition early {R A} (r : R) : M R A := fun w => (Returned r, w).

Definition bind {R A B} (m : M R A) (k : A -> M R B) : M R B :=
  fun w =>
    match m w with
    | (Ok a, w') => k a w'
    | (Thrown, w') => (Thrown, w')
    | (Returned r, w') => (Returned r, w')
    end.

Notation "x <~ m ;; k" := (bind m (fun x => k))
  (at level 100, m at level 99, k at level 200, right associativity).
Notation "m ;;; k" := (bind m (fun _ => k))
  (at level 100, k at level 200, right associativity).

Definition get {R} : M R World := fun w => (Ok w, w).
Definition modify {R} (f : World -> World) : M R unit := fun w => (Ok tt, f w).

(** [try { body } catch { handler }]: state changes made before the throw
    stay. *)
Definition try_catch {R A} (body handler : M R A) : M R A :=
  fun w =>
    match body w with
    | (Thrown, w') => handler w'
    | r => r
    end.

(** ** The PostgreSQL client and the file system *)

Section Client.
Context {R : Type}.
Variable faults : Faults.

(** [client.query(stmt)]: the statement runs on the working copy of the open
    transaction, or directly on the committed tables when none is open.
    [run] gives [None] when the statement violates a modelled constraint. *)
Definition client_query {A} (s : Stmt) (run : Db -> option (A * Db)) : M R A :=
  fun w =>
    if faults s then (Thrown, w)
    else
      match tx w with
      | Some d =>
          match run d with
          | Some (a, d') => (Ok a, set_tx w (Some d'))
          | None => (Thrown, w)
          end
      | None =>
          match run (committed w) with
          | Some (a, d') => (Ok a, set_committed w d')
          | None => (Thrown, w)
          end
      end.

(** [client.query('BEGIN')] *)
Definition client_begin : M R unit :=
  fun w =>
    if faults SBegin then (Thrown, w)
    else (Ok tt, set_tx w (Some (committed w))).

(** [client.query('COMMIT')] *)
Definition client_commit : M R unit :=
  fun w =>
    if faults SCommit then (Thrown, w)
    else
      match tx w with
      | Some d => (Ok tt, set_tx (set_committed w d) None)
      | None => (Ok tt, w)
      end.

(** [client.query('ROLLBACK')] *)
Definition client_rollback : M R unit :=
  fun w =>
    if faults SRollback then (Thrown, w)
    else (Ok tt, set_tx w None).

(** [fs.readFileSync(path)] *)
Definition readFileSync (path : string) : M R Bytes :=
  fun w =>
    match files w !! path with
    | Some data => (Ok data, w)
    | None => (Thrown, w)
    end.

(** [fs.unlinkSync(path)] *)
Definition unlinkSync (path : string) : M R unit :=
  fun w =>
    match files w !! path with
    | Some _ => (Ok tt, set_files w (delete path (files w)))
    | None => (Thrown, w)
    end.

End Client.

(** ** Dates *)

(** The host's time zone: the offset of local time from UTC, in milliseconds,
    at a UTC instant and at a local time value (ECMAScript's
    [LocalTZA(t, true)] and [LocalTZA(t, false)]). *)
Record TimeZone := {
  tza_utc : Z -> Z;
  tza_local : Z -> Z
}.

Definition fixed_zone (k : Z) : TimeZone :=
  {| tza_utc := fun _ => k; tza_local := fun _ => k |}.

(** [d.setHours(d.getHours() + 12)] on the time value [t] of [d]:
    [MakeDate(Day(l), MakeTime(HourFromTime(l) + 12, ...))] with
    [l = LocalTime(t)] is [l + 12 * msPerHour], which [UTC] maps back.
    Time values stay within the range that [TimeClip] accepts. *)
Definition setHours_plus12 (zone : TimeZone) (t : Z) : Z :=
  let l := t + tza_utc zone t in
  let date := l + 12 * msPerHour in
  date - tza_local zone date.

(** ** Requests and responses *)

Record File := {
  f_path : string;
  f_originalname : js_string;
  f_mimetype : js_string
}.

(** [req.body] is an object used as a map from field names to strings. *)
Record Request := {
  req_authorization : option js_string;
  req_body : gmap string js_string;
  req_file : option File
}.

Record FeedItem := {
  fi_id : Id;
  fi_caption : option js_string;
  fi_hashtags : option js_string;
  fi_location : option js_string;
  fi_created_at : Timestamp;
  fi_user_id : option Id;
  fi_username : option js_string;
  fi_profile_picture_url : option js_string;
  fi_hashtag_list : list js_string
}.

Record Pagination := {
  pg_page : Z;
  pg_limit : Z;
  pg_totalItems : Z;
  pg_totalPages : Z
}.

Record SnapView := {
  sv_id : Id;
  sv_imageUrl : ImageUrl;
  sv_caption : option js_string;
  sv_hashtags : option js_string;
  sv_hashtag_list : option (list js_string);
  sv_location : option js_string;
  sv_createdAt : Timestamp;
  sv_username : js_string;
  sv_profilePictureUrl : option js_string
}.

Inductive Response :=
| Created (snap : SnapDto)                          (* 201 *)
| UserCreated (id : Id) (username : js_string)      (* 201 *)
| LoggedIn (id : Id) (username : js_string)         (* 200 *)
| FeedOk (items : list FeedItem) (p : Pagination)   (* 200 *)
| SnapOk (snap : SnapView)                          (* 200 *)
| ImageOk (mime_type : js_string) (data : Bytes)    (* 200 *)
| BadRequest                                        (* 400 *)
| Unauthorized                                      (* 401 *)
| Forbidden                                         (* 403 *)
| NotFound                                          (* 404 *)
| ServerError.                                      (* 500 *)

(** [s.split(' ')]: a string separator cuts at every occurrence. *)
Fixpoint split_char_go (d : code_unit) (cur s : js_string) : list js_string :=
  match s with
  | [] => [rev cur]
  | c :: s' =>
      if (c =? d)%N then rev cur :: split_char_go d [] s'
      else split_char_go d (c :: cur) s'
  end.

(** [authHeader && authHeader.split(' ')[1]], and then [!token]: the token is
    there when it is a non-empty string. *)
Definition bearer_token (authHeader : option js_string) : option js_string :=
  match authHeader with
  | None => None
  | Some h =>
      match nth_error (split_char_go 32%N [] h) 1 with
      | Some (c :: t) => Some (c :: t)
      | _ => None
      end
  end.

(** ** POST /api/snaps *)

(** What the handler reads from its surroundings during one request. *)
Record UploadEnv := {
  app_now : Z;            (* [new Date()] on the application server *)
  zone : TimeZone;        (* the application server's time zone *)
  db_now : Timestamp;     (* [NOW()] in the transaction *)
  date_now : Z;           (* [Date.now()] in the virtual URL *)
  new_id : Id             (* [uuid_generate_v4()] *)
}.

Section Upload.

(** [jwt.verify(token, JWT_SECRET)]: the [id] of the payload, or an
    exception. *)
Variable jwt_verify : js_string -> option Id.
Variable faults : Faults.

(** The middleware [authenticateToken]: [None] stands for [next()]. *)
Definition authenticateToken (req : Request) : option Response :=
  match bearer_token (req_authorization req) with
  | None => Some Unauthorized
  | Some token =>
      match jwt_verify token with
      | None => Some Forbidden
      | Some _ => None
      end
  end.

(** The row that the INSERT of lines 342-364 adds; the columns it does not
    list take their defaults. *)
Definition new_snap_row (env : UploadEnv) (req : Request) (file : File)
    (userId : Id) (imageData : Bytes) (hashtags : js_string)
    (expiresAt : Z) : SnapRow :=
  {| s_id := new_id env;
     s_user_id := userId;
     s_image_url :=
       {| url_stamp := date_now env; url_name := f_originalname file |};
     s_caption := req_body req !! "caption";
     s_hashtags := Some hashtags;
     s_location := Some (default [] (req_body req !! "location"));
     s_image_data := imageData;
     s_mime_type := f_mimetype file;
     s_created_at := db_now env;
     s_expires_at := Some expiresAt;
     s_view_count := 0;
     s_is_public := true |}.

(** The primary key refuses an [id] that is already there. *)
Definition insert_snap (row : SnapRow) (d : Db) : option (unit * Db) :=
  if existsb (fun s => (s_id s =? s_id row)%N) (snaps d) then None
  else Some (tt, set_snaps d (snaps d ++ [row])).

Definition select_user (userId : Id) (d : Db) : option (list UserRow * Db) :=
  Some (List.filter (fun u => (u_id u =? userId)%N) (users d), d).

(** Lines 372-384: one INSERT per tag, a failure is logged and skipped.  The
    transaction goes on after a refused INSERT, as the handler expects; the
    handler sets no savepoint, and a PostgreSQL server that has refused a
    statement refuses the rest of the transaction and ends it without a
    commit, so what a request stores is settled here for the plans that
    refuse no per-tag INSERT. *)
Fixpoint insert_tags (snapId : Id) (tags : list js_string) (i : nat)
    : M Response unit :=
  match tags with
  | [] => ret tt
  | tag :: rest =>
      try_catch
        (client_query faults (SInsertTag i)
           (fun d => Some (tt, insert_tag_on_conflict_do_nothing (snapId, tag) d)))
        (ret tt) ;;;
      insert_tags snapId rest (S i)
  end.

(** Lines 367-385: [if (hashtags) { ... }]. *)
Definition index_hashtags (snapId : Id) (hashtags : js_string) : M Response unit :=
  if truthy hashtags then insert_tags snapId (upload_tags hashtags) 0
  else ret tt.

(** The body of the [try] block, lines 308-412. *)
Definition upload_try (env : UploadEnv) (req : Request) (file : File)
    : M Response Response :=
  client_begin faults ;;;
  let expiresAt := setHours_plus12 (zone env) (app_now env) in
  match bearer_token (req_authorization req) with
  | None => early Unauthorized
  | Some token =>
      match jwt_verify token with
      | None => throw
      | Some userId =>
          rows <~ client_query faults SSelectUser (select_user userId) ;;
          match rows with
          | [] => early NotFound
          | u :: _ =>
              let username := u_username u in
              imageData <~ readFileSync (f_path file) ;;
              let hashtags := default [] (req_body req !! "hashtags") in
              let row :=
                new_snap_row env req file userId imageData hashtags expiresAt in
              client_query faults SInsertSnap (insert_snap row) ;;;
              index_hashtags (s_id row) hashtags ;;;
              unlinkSync (f_path file) ;;;
              let snap :=
                {| dto_id := s_id row;
                   dto_username := username;
                   dto_imageUrl := s_id row;
                   dto_caption := req_body req !! "caption";
                   dto_location := default [] (req_body req !! "location");
                   dto_createdAt := s_created_at row |} in
              client_commit faults ;;;
              modify (fun w => add_emitted w snap) ;;;
              ret (Created snap)
          end
      end
  end.

(** The [catch] block, lines 414-431: a best-effort unlink, ROLLBACK, 500. *)
Definition upload_catch (file : File) : M Response Response :=
  try_catch (unlinkSync (f_path file)) (ret tt) ;;;
  client_rollback faults ;;;
  ret ServerError.

(** [try { ... } catch (error) { ... } finally { client.release() }]: the
    client goes back to the pool as it is. *)
Definition upload_handler (env : UploadEnv) (req : Request) (file : File)
    : M Response Response :=
  try_catch (upload_try env req file) (upload_catch file).

(** What the caller receives: nothing when the handler itself rejects, which
    happens when the ROLLBACK of the [catch] block throws. *)
Definition response_of (o : Outcome Response Response) : option Response :=
  match o with
  | Ok r => Some r
  | Returned r => Some r
  | Thrown => None
  end.

(** The route, after [upload.single('image')] has stored the file. *)
Definition api_snaps_post (env : UploadEnv) (req : Request) (w : World)
    : option Response * World :=
  match authenticateToken req with
  | Some r => (Some r, w)
  | None =>
      match req_file req with
      | None => (Some BadRequest, w)
      | Some file =>
          let (o, w') := upload_handler env req file w in
          (response_of o, w')
      end
  end.

End Upload.

(** ** The cleanup job *)

Definition stale (now : Timestamp) (s : SnapRow) : bool :=
  s_created_at s <? now - TTL.

(** [DELETE FROM snaps WHERE created_at < NOW() - INTERVAL '12 hours'
     RETURNING id, image_url] *)
Definition delete_expired (now : Timestamp) (d : Db)
    : option (list (Id * ImageUrl) * Db) :=
  let gone := List.filter (stale now) (snaps d) in
  Some (map (fun s => (s_id s, s_image_url s)) gone,
        {| users := users d;
           snaps := List.filter (fun s => negb (stale now s)) (snaps d);
           snaps_hashtags := cascade_tags (map s_id gone) (snaps_hashtags d) |}).

(** [cleanupExpiredSnaps], lines 24-63.  The value stands for what the pass
    logs: the rows returned by the DELETE when it commits, [None] when it was
    rolled back. *)
Definition cleanupExpiredSnaps (faults : Faults) (now : Timestamp)
    : M unit (option (list (Id * ImageUrl))) :=
  try_catch
    (client_begin faults ;;;
     rows <~ client_query faults SDeleteExpired (delete_expired now) ;;
     client_commit faults ;;;
     ret (Some rows))
    (client_rollback faults ;;;
     ret None).

(** ** The read endpoints *)

(** [db.query] of [db-pg.js] runs one statement on the pool; the three read
    routes only SELECT.  A route parameter that is not a UUID makes the
    statement fail: it is [None] here. *)

(** GET /api/snaps/image/:id, lines 438-460. *)
Definition api_snaps_image (faults : Faults) (id : option Id) (d : Db) : Response :=
  match id with
  | None => ServerError
  | Some id =>
      if faults SSelectImage then ServerError
      else
        match List.filter (fun s => (s_id s =? id)%N) (snaps d) with
        | [] => NotFound
        | s :: _ => ImageOk (s_mime_type s) (s_image_data s)
        end
  end.

(** [SELECT array_agg(hashtag) FROM snaps_hashtags WHERE snap_id = id], and
    [json_agg] alike: NULL when no row matches. *)
Definition agg_tags (d : Db) (id : Id) : option (list js_string) :=
  match List.filter (fun r => (fst r =? id)%N) (snaps_hashtags d) with
  | [] => None
  | l => Some (map snd l)
  end.

(** GET /api/snaps/:id, lines 559-598: the row of a snap joined with one of
    its users. *)
Definition snap_view (d : Db) (s : SnapRow) (u : UserRow) : SnapView :=
  {| sv_id := s_id s;
     sv_imageUrl := s_image_url s;
     sv_caption := s_caption s;
     sv_hashtags := s_hashtags s;
     sv_hashtag_list := agg_tags d (s_id s);
     sv_location := s_location s;
     sv_createdAt := s_created_at s;
     sv_username := u_username u;
     sv_profilePictureUrl := u_profile_picture_url u |}.

(** [FROM snaps s JOIN users u ON s.user_id = u.id] for one snap. *)
Definition join_users (d : Db) (s : SnapRow) : list SnapView :=
  map (snap_view d s)
      (List.filter (fun u => (u_id u =? s_user_id s)%N) (users d)).

Definition select_snap (id : Id) (d : Db) : list SnapView :=
  flat_map (join_users d)
           (List.filter (fun s => (s_id s =? id)%N) (snaps d)).

Definition api_snaps_get (faults : Faults) (id : option Id) (d : Db) : Response :=
  match id with
  | None => ServerError
  | Some id =>
      if faults SSelectSnap then ServerError
      else
        match select_snap id d with
        | [] => NotFound
        | v :: _ => SnapOk v
        end
  end.

(** *** GET /api/feed, lines 463-556 *)

(** [parseInt(q) || dflt]: [parseInt] gives [None] for NaN, and both NaN and
    0 are falsy. *)
Definition parseInt_or (q : option Z) (dflt : Z) : Z :=
  match q with
  | None => dflt
  | Some 0 => dflt
  | Some n => n
  end.

Definition feed_page_number (q_page : option Z) : Z :=
  Z.max 1 (parseInt_or q_page 1).
Definition feed_limit (q_limit : option Z) : Z :=
  Z.min 50 (Z.max 1 (parseInt_or q_limit 10)).
Definition feed_offset (page limit : Z) : Z := (page - 1) * limit.

(** [ORDER BY s.created_at DESC]: this is the whole sort key. *)
Definition newer_first (a b : SnapRow) : Prop :=
  s_created_at b <= s_created_at a.

#[global] Instance newer_first_dec : RelDecision newer_first.
Proof. intros a b. unfold newer_first. apply _. Defined.

(** The rows of [snap_data]: a window of the snaps in some order that the
    sort key allows.  Rows with equal [created_at] come in whatever order the
    executor produces. *)
Definition snap_data (d : Db) (limit offset : Z) (rows : list SnapRow) : Prop :=
  exists l : list SnapRow,
    l ≡ₚ snaps d /\ StronglySorted newer_first l /\
    rows = take (Z.to_nat limit) (drop (Z.to_nat offset) l).

(** One execution among them: a merge sort of the table in physical order. *)
Definition snap_data_exec (d : Db) (limit offset : Z) : list SnapRow :=
  take (Z.to_nat limit) (drop (Z.to_nat offset) (merge_sort newer_first (snaps d))).

(** Lines 507-528: keep the aggregated list, or parse the raw string. *)
Definition process_hashtag_list (hashtags : option js_string)
    (hashtag_list : option (list js_string)) : list js_string :=
  match hashtag_list with
  | Some l => l
  | None =>
      match hashtags with
      | Some h => if truthy h then fallback_tags h else []
      | None => []
      end
  end.

(** A row of the outer SELECT after processing; [LEFT JOIN users] leaves the
    user columns NULL when no user matches, and [users.id] is a key. *)
Definition feed_item (d : Db) (s : SnapRow) : FeedItem :=
  let u := List.find (fun u => (u_id u =? s_user_id s)%N) (users d) in
  {| fi_id := s_id s;
     fi_caption := s_caption s;
     fi_hashtags := s_hashtags s;
     fi_location := s_location s;
     fi_created_at := s_created_at s;
     fi_user_id := u_id <$> u;
     fi_username := u_username <$> u;
     fi_profile_picture_url := u ≫= u_profile_picture_url;
     fi_hashtag_list :=
       process_hashtag_list (s_hashtags s) (agg_tags d (s_id s)) |}.

(** [Math.ceil(totalSnaps / limit)], for [limit >= 1]. *)
Definition total_pages (totalSnaps limit : Z) : Z :=
  (totalSnaps + limit - 1) / limit.

(** [SELECT COUNT( * ) FROM snaps] *)
Definition count_snaps (d : Db) : Z := Z.of_nat (length (snaps d)).

Definition feed_pagination (q_page q_limit : option Z) (d : Db) : Pagination :=
  let limit := feed_limit q_limit in
  {| pg_page := feed_page_number q_page;
     pg_limit := limit;
     pg_totalItems := count_snaps d;
     pg_totalPages := total_pages (count_snaps d) limit |}.

(** The responses the route may send.  The handler also checks out a pooled
    client that it neither uses nor releases; the size of the pool is not
    modelled. *)
Definition api_feed (faults : Faults) (q_page q_limit : option Z) (d : Db)
    (resp : Response) : Prop :=
  let page := feed_page_number q_page in
  let limit := feed_limit q_limit in
  if faults SSelectFeed || faults SSelectCount then resp = ServerError
  else
    exists rows,
      snap_data d limit (feed_offset page limit) rows /\
      resp = FeedOk (map (feed_item d) rows) (feed_pagination q_page q_limit d).

Definition api_feed_exec (faults : Faults) (q_page q_limit : option Z) (d : Db)
    : Response :=
  let page := feed_page_number q_page in
  let limit := feed_limit q_limit in
  if faults SSelectFeed || faults SSelectCount then ServerError
  else
    FeedOk (map (feed_item d) (snap_data_exec d limit (feed_offset page limit)))
           (feed_pagination q_page q_limit d).

(** ** Accounts *)

(** [!s] for a field of [req.body]. *)
Definition missing (s : option js_string) : bool :=
  match s with
  | Some (_ :: _) => false
  | _ => true
  end.

(** POST /api/signup, lines 154-204.  [hashed] is the result of
    [bcrypt.hash], [id] the key the database generates. *)
Definition api_signup (faults : Faults) (username password email : option js_string)
    (hashed : js_string) (id : Id) (d : Db) : Response * Db :=
  if missing username || missing password then (BadRequest, d)
  else
    let name := default [] username in
    let email := default (name ++ lit "@example.com") email in
    if faults SSelectUserByName then (ServerError, d)
    else if existsb (fun u => bool_decide (u_username u = name)) (users d)
    then (BadRequest, d)
    else if faults SInsertUser
            || existsb (fun u => bool_decide (u_email u = email)) (users d)
            || existsb (fun u => (u_id u =? id)%N) (users d)
    then (ServerError, d)
    else
      (UserCreated id name,
       set_users d
         (users d ++
          [{| u_id := id; u_username := name; u_email := email;
              u_password_hash := hashed; u_profile_picture_url := None;
              u_is_active := true |}])).

(** POST /api/login, lines 207-274.  [valid] is the result of
    [bcrypt.compare] on the stored hash. *)
Definition api_login (faults : Faults) (username password : option js_string)
    (valid : js_string -> bool) (d : Db) : Response :=
  if missing username || missing password then BadRequest
  else if faults SSelectUserByName then ServerError
  else
    match List.filter (fun u => bool_decide (u_username u = default [] username))
                      (users d) with
    | [] => Unauthorized
    | u :: _ =>
        if valid (u_password_hash u) then LoggedIn (u_id u) (u_username u)
        else Unauthorized
    end.

(** [db.query] of [db-pg.js], which the two account routes call, hands the
    statement to an idle client of the pool.  The world follows one client,
    the one the upload handler checks out and releases: when it went back to
    the pool inside its transaction (the 404 of the upload), a statement
    handed to it runs inside that transaction and commits nothing. *)
Definition pool_query {A} (run : Db -> A * Db) (w : World) : A * World :=
  match tx w with
  | None => let (a, d) := run (committed w) in (a, set_committed w d)
  | Some d0 => let (a, d) := run d0 in (a, set_tx w (Some d))
  end.

Definition post_api_signup (faults : Faults)
    (username password email : option js_string) (hashed : js_string) (id : Id)
    (w : World) : Response * World :=
  pool_query (api_signup faults username password email hashed id) w.


(** ** The server as a transition system *)

(** [upload.single('image')] stores the payload under the generated name
    before the handler runs. *)
Definition multer_single (req : Request) (payload : Bytes) (w : World) : World :=
  match req_file req with
  | Some f => set_files w (<[f_path f := payload]> (files w))
  | None => w
  end.

Inductive Op :=
| OpSignup (username password email : option js_string) (hashed : js_string) (id : Id)
| OpLogin (username password : option js_string) (valid : js_string -> bool)
| OpUpload (env : UploadEnv) (req : Request) (payload : Bytes)
| OpImage (id : option Id)
| OpSnap (id : option Id)
| OpFeed (q_page q_limit : option Z)
| OpCleanup (now : Timestamp).

Section Server.
Variable jwt_verify : js_string -> option Id.

(** One request, or one pass of the cleanup job, under a fault plan.  The
    read routes and the login send a response and leave the world as it
    is. *)
Definition step (w : World) (fo : Faults * Op) : World :=
  let (faults, op) := fo in
  match op with
  | OpSignup username password email hashed id =>
      snd (post_api_signup faults username password email hashed id w)
  | OpUpload env req payload =>
      match authenticateToken jwt_verify req with
      | Some _ => w
      | None =>
          snd (api_snaps_post jwt_verify faults env req (multer_single req payload w))
      end
  | OpCleanup now => snd (cleanupExpiredSnaps faults now w)
  | OpLogin _ _ _ | OpImage _ | OpSnap _ | OpFeed _ _ => w
  end.

Definition run (trace : list (Faults * Op)) (w : World) : World :=
  fold_left step trace w.

End Server.

Definition empty_world : World :=
  {| committed := empty_db; tx := None; files := ∅; emitted := [] |}.

(** ** Schema initialisation, [db-pg.js] *)

(** A column as the catalog has it: its name, its type, and whether it is a
    key of its table by itself (PRIMARY KEY or UNIQUE). *)
Record Column := {
  col_name : string;
  col_type : string;
  col_key : bool
}.

(** The catalog of the database: the columns of each table that exists. *)
Abbreviation Catalog := (gmap string (list Column)) (only parsing).

(** The committed catalog and the working copy of the transaction open on
    the client of [initDb]. *)
Record Schema := {
  catalog : Catalog;
  pending : option Catalog
}.

(** The statements of [initDb]; a fault plan says which ones the database
    refuses for reasons of its own (a lost connection, a missing privilege,
    no [uuid_generate_v4] to call). *)
Inductive InitStmt :=
| IBegin | ICreateUsers | ICreateSnaps | ICommit | IRollback.

Definition users_columns : list Column :=
  [ {| col_name := "id"; col_type := "UUID"; col_key := true |};
    {| col_name := "username"; col_type := "VARCHAR(50)"; col_key := true |};
    {| col_name := "email"; col_type := "VARCHAR(255)"; col_key := true |};
    {| col_name := "password_hash"; col_type := "VARCHAR(255)"; col_key := false |};
    {| col_name := "created_at"; col_type := "TIMESTAMPTZ"; col_key := false |};
    {| col_name := "updated_at"; col_type := "TIMESTAMPTZ"; col_key := false |};
    {| col_name := "last_login"; col_type := "TIMESTAMPTZ"; col_key := false |};
    {| col_name := "profile_picture_url"; col_type := "VARCHAR(512)";
       col_key := false |};
    {| col_name := "bio"; col_type := "TEXT"; col_key := false |};
    {| col_name := "is_active"; col_type := "BOOLEAN"; col_key := false |} ].

Definition snaps_columns : list Column :=
  [ {| col_name := "id"; col_type := "UUID"; col_key := true |};
    {| col_name := "user_id"; col_type := "UUID"; col_key := false |};
    {| col_name := "image_url"; col_type := "VARCHAR(512)"; col_key := false |};
    {| col_name := "caption"; col_type := "TEXT"; col_key := false |};
    {| col_name := "location"; col_type := "VARCHAR(255)"; col_key := false |};
    {| col_name := "created_at"; col_type := "TIMESTAMPTZ"; col_key := false |};
    {| col_name := "expires_at"; col_type := "TIMESTAMPTZ"; col_key := false |};
    {| col_name := "view_count"; col_type := "INTEGER"; col_key := false |};
    {| col_name := "is_public"; col_type := "BOOLEAN"; col_key := false |} ].

(** [CREATE TABLE IF NOT EXISTS name (...)]: a table of that name, whatever
    its columns, is left as it is and the statement succeeds with a notice. *)
Definition create_table_if_not_exists (name : string) (columns : list Column)
    (c : Catalog) : Catalog :=
  match c !! name with
  | Some _ => c
  | None => <[name := columns]> c
  end.

(** [user_id UUID ... REFERENCES users(id)]: the referenced column has to be
    there, of the same type, and a key of [users]. *)
Definition references_users_id (c : Catalog) : bool :=
  match c !! "users" with
  | Some columns =>
      existsb (fun col => bool_decide (col_name col = "id")
                          && bool_decide (col_type col = "UUID")
                          && col_key col) columns
  | None => false
  end.

(** Lines 30-43. *)
Definition create_users (c : Catalog) : option Catalog :=
  Some (create_table_if_not_exists "users" users_columns c).

(** Lines 46-58: the foreign key is looked at only when the table is
    created. *)
Definition create_snaps (c : Catalog) : option Catalog :=
  match c !! "snaps" with
  | Some _ => Some c
  | None =>
      if references_users_id c then Some (<["snaps" := snaps_columns]> c)
      else None
  end.

(** A step of [initDb] completes, or throws the error of a statement. *)
Definition Init : Type := Schema -> option InitStmt * Schema.

Definition init_seq (m k : Init) : Init :=
  fun s =>
    match m s with
    | (None, s') => k s'
    | (Some e, s') => (Some e, s')
    end.

Section InitClient.
Variable faults : InitStmt -> bool.

(** [client.query('BEGIN')] *)
Definition init_begin : Init :=
  fun s =>
    if faults IBegin then (Some IBegin, s)
    else (None, {| catalog := catalog s; pending := Some (catalog s) |}).

(** [client.query(`CREATE TABLE ...`)]: PostgreSQL runs DDL inside the
    transaction, on its working copy. *)
Definition init_ddl (st : InitStmt) (run : Catalog -> option Catalog) : Init :=
  fun s =>
    if faults st then (Some st, s)
    else
      match pending s with
      | Some c =>
          match run c with
          | Some c' => (None, {| catalog := catalog s; pending := Some c' |})
          | None => (Some st, s)
          end
      | None =>
          match run (catalog s) with
          | Some c' => (None, {| catalog := c'; pending := None |})
          | None => (Some st, s)
          end
      end.

(** [client.query('COMMIT')] *)
Definition init_commit : Init :=
  fun s =>
    if faults ICommit then (Some ICommit, s)
    else
      match pending s with
      | Some c => (None, {| catalog := c; pending := None |})
      | None => (None, s)
      end.

(** [client.query('ROLLBACK')] *)
Definition init_rollback : Init :=
  fun s =>
    if faults IRollback then (Some IRollback, s)
    else (None, {| catalog := catalog s; pending := None |}).

(** The [try] block, lines 27-63. *)
Definition init_try : Init :=
  init_seq init_begin
    (init_seq (init_ddl ICreateUsers create_users)
       (init_seq (init_ddl ICreateSnaps create_snaps) init_commit)).

(** [initDb], lines 24-71, on a client fresh from the pool.  [None] stands
    for a promise that resolves, [Some st] for one that rejects with the
    error of the statement [st]: the [catch] block throws the error of the
    [try] block again after ROLLBACK, or the error of ROLLBACK itself. *)
Definition initDb (c : Catalog) : option InitStmt * Schema :=
  match init_try {| catalog := c; pending := None |} with
  | (None, s) => (None, s)
  | (Some e, s) =>
      match init_rollback s with
      | (None, s') => (Some e, s')
      | (Some e', s') => (Some e', s')
      end
  end.

End InitClient.

(** * Vocabulary of the statements *)

(** ** Tokens of a raw string *)

Section Tokens.
Variable sep : code_unit -> bool.

Definition sep_free (t : js_string) : Prop := Forall (fun c => sep c = false) t.

(** The text before a token: nothing, or something that ends with a
    separator; the text after it: nothing, or something that starts with
    one. *)
Definition ends_with_sep (pre : js_string) : Prop :=
  exists p c, pre = p ++ [c] /\ sep c = true.
Definition starts_with_sep (post : js_string) : Prop :=
  post = [] \/ exists c p, post = c :: p /\ sep c = true.

(** [t] is a maximal separator-free piece of [s]. *)
Definition token_of (s t : js_string) : Prop :=
  exists pre post,
    s = pre ++ t ++ post /\ sep_free t /\
    (pre = [] \/ ends_with_sep pre) /\ starts_with_sep post.

End Tokens.

(** ** States reached and states compared *)

(** The tags of the working copy once the loop of lines 372-384 has run: a
    refused INSERT is skipped. *)
Fixpoint tags_after (faults : Faults) (snapId : Id) (tags : list js_string)
    (i : nat) (d : Db) : Db :=
  match tags with
  | [] => d
  | tag :: rest =>
      tags_after faults snapId rest (S i)
        (if faults (SInsertTag i) then d
         else insert_tag_on_conflict_do_nothing (snapId, tag) d)
  end.

(** The tables after a pass that went through. *)
Definition reaped (now : Timestamp) (d : Db) : Db :=
  {| users := users d;
     snaps := List.filter (fun s => negb (stale now s)) (snaps d);
     snaps_hashtags :=
       cascade_tags (map s_id (List.filter (stale now) (snaps d))) (snaps_hashtags d) |}.

Definition descending : relation Z := fun a b => b <= a.

(** The columns of [snaps] that the three read routes select, join on or
    sort by.  [expires_at], [view_count] and [is_public] are not among
    them. *)
Definition read_columns (s : SnapRow) :=
  (s_id s, s_user_id s, s_image_url s, s_caption s, s_hashtags s, s_location s,
   s_image_data s, s_mime_type s, s_created_at s).

Definition same_read_columns (d1 d2 : Db) : Prop :=
  users d1 = users d2 /\ snaps_hashtags d1 = snaps_hashtags d2 /\
  map read_columns (snaps d1) = map read_columns (snaps d2).


Definition set_expires_at (s : SnapRow) (e : option Timestamp) : SnapRow :=
  {| s_id := s_id s; s_user_id := s_user_id s; s_image_url := s_image_url s;
     s_caption := s_caption s; s_hashtags := s_hashtags s;
     s_location := s_location s; s_image_data := s_image_data s;
     s_mime_type := s_mime_type s; s_created_at := s_created_at s;
     s_expires_at := e; s_view_count := s_view_count s;
     s_is_public := s_is_public s |}.


Definition differ_only_in_expires_at (d1 d2 : Db) : Prop :=
  users d1 = users d2 /\ snaps_hashtags d1 = snaps_hashtags d2 /\
  Forall2 (fun a b => b = set_expires_at a (s_expires_at b)) (snaps d1) (snaps d2).

(** The keys of [db-pg.js]: [snaps.id] and [users.id] are primary keys,
    [users.username] and [users.email] are UNIQUE, and [snaps.user_id]
    REFERENCES [users(id)]. *)
Definition integrity (d : Db) : Prop :=
  List.NoDup (map s_id (snaps d)) /\
  List.NoDup (map u_id (users d)) /\
  List.NoDup (map u_username (users d)) /\
  List.NoDup (map u_email (users d)) /\
  (forall s, In s (snaps d) -> exists u, In u (users d) /\ u_id u = s_user_id s).

(** The catalog that the four statements of the [try] block build. *)
Definition initialised (c : Catalog) : Catalog :=
  create_table_if_not_exists "snaps" snaps_columns
    (create_table_if_not_exists "users" users_columns c).

(** What makes the promise resolve. *)
Definition init_accepted (faults : InitStmt -> bool) (c : Catalog) : Prop :=
  faults IBegin = false /\ faults ICreateUsers = false /\
  faults ICreateSnaps = false /\ faults ICommit = false /\
  (is_Some (c !! "snaps") \/
   references_users_id (create_table_if_not_exists "users" users_columns c) = true).

(** * A concrete deployment, for the examples *)

Definition ex_alice : UserRow :=
  {| u_id := 1%N; u_username := lit "alice"; u_email := lit "alice@example.com";
     u_password_hash := lit "$2b$10$abc"; u_profile_picture_url := None;
     u_is_active := true |}.

(** An account whose active flag has been cleared. *)
Definition ex_bob : UserRow :=
  {| u_id := 2%N; u_username := lit "bob"; u_email := lit "bob@example.com";
     u_password_hash := lit "$2b$10$def"; u_profile_picture_url := None;
     u_is_active := false |}.

(** Tokens "t1", "t2" and "t3" carry the ids 1, 2 and 3. *)
Definition ex_jwt (token : js_string) : option Id :=
  if bool_decide (token = lit "t1") then Some 1%N
  else if bool_decide (token = lit "t2") then Some 2%N
  else if bool_decide (token = lit "t3") then Some 3%N
  else None.

Definition ex_file : File :=
  {| f_path := "public/uploads/0b5e.png"; f_originalname := lit "cat.png";
     f_mimetype := lit "image/png" |}.

(** A form that also carries an [expires_at] field of the client's own. *)
Definition ex_req (token : string) : Request :=
  {| req_authorization := Some (lit "Bearer " ++ lit token);
     req_body := <["caption" := lit "hello"]>
                 (<["hashtags" := lit "#foo, #bar  baz"]>
                  (<["expires_at" := lit "9999999999999"]> ∅));
     req_file := Some ex_file |}.

(** The application clock reads one millisecond after the database's. *)
Definition ex_env : UploadEnv :=
  {| app_now := 1001; zone := fixed_zone 0; db_now := 1000; date_now := 1001;
     new_id := 10%N |}.

Definition ex_db : Db :=
  {| users := [ex_alice; ex_bob]; snaps := []; snaps_hashtags := [] |}.

Definition ex_world : World :=
  {| committed := ex_db; tx := None;
     files := {[ "public/uploads/0b5e.png" := [137; 80; 78; 71]%N ]};
     emitted := [] |}.

(** Two snaps, the first created 13 hours before [now], the second one hour
    before. *)
Definition ex_snap (id : Id) (created expires : Z) (public : bool) : SnapRow :=
  {| s_id := id; s_user_id := 1%N;
     s_image_url := {| url_stamp := created; url_name := lit "cat.png" |};
     s_caption := None; s_hashtags := Some (lit "#foo"); s_location := Some [];
     s_image_data := [137; 80; 78; 71]%N; s_mime_type := lit "image/png";
     s_created_at := created; s_expires_at := Some expires;
     s_view_count := 0; s_is_public := public |}.

Definition ex_now : Timestamp := 100 * msPerHour.

Definition ex_old : SnapRow :=
  ex_snap 20%N (ex_now - 13 * msPerHour) (ex_now - msPerHour) true.
Definition ex_recent : SnapRow :=
  ex_snap 21%N (ex_now - msPerHour) (ex_now + 11 * msPerHour) true.

Definition ex_db2 : Db :=
  {| users := [ex_alice]; snaps := [ex_old; ex_recent];
     snaps_hashtags := [(20%N, lit "#foo"); (21%N, lit "#foo")] |}.

Definition ex_world2 : World :=
  {| committed := ex_db2; tx := None; files := ∅; emitted := [] |}.


(** Three snaps: two created at the same millisecond, one a millisecond
    earlier. *)
Definition ex_a : SnapRow := ex_snap 31%N 5000 43205000 true.
Definition ex_b : SnapRow := ex_snap 32%N 5000 43205000 true.
Definition ex_c : SnapRow := ex_snap 33%N 4999 43204999 true.

Definition ex_db3 : Db :=
  {| users := [ex_alice]; snaps := [ex_a; ex_b; ex_c]; snaps_hashtags := [] |}.

(** Alice signs up, uploads a snap, looks at the feed and at the image, and
    the reaper passes an hour later. *)
Definition ex_trace : list (Faults * Op) :=
  [ (no_faults, OpSignup (Some (lit "alice")) (Some (lit "secret")) None
                  (lit "$2b$10$abc") 1%N);
    (no_faults, OpUpload ex_env (ex_req "t1") [137; 80; 78; 71]%N);
    (no_faults, OpFeed None None);
    (no_faults, OpImage (Some 10%N));
    (no_faults, OpCleanup (1000 + msPerHour)) ].

(** A database on which an earlier schema left a [users] table keyed by a
    serial number. *)
Definition ex_legacy_catalog : Catalog :=
  {[ "users" := [ {| col_name := "id"; col_type := "INTEGER"; col_key := true |};
                  {| col_name := "name"; col_type := "TEXT"; col_key := false |} ] ]}.

(** * Properties *)

Example upload_tags_ex :
  upload_tags (lit "#foo, #bar  baz") = [lit "#foo"; lit "#bar"].
Proof. reflexivity. Qed.

(** ** Tokenization *)

Section Split.
Variable sep : code_unit -> bool.

Lemma split_go_tokens (s : js_string) : forall (cur : js_string) (b : bool) (t : js_string),
  sep_free sep cur -> (b = true -> cur = []) -> t <> [] ->
  (In t (split_go sep cur b s) <->
   (exists t' post, t = rev cur ++ t' /\ s = t' ++ post /\ sep_free sep t' /\
                    starts_with_sep sep post) \/
   (exists pre post, s = pre ++ t ++ post /\ sep_free sep t /\
                     ends_with_sep sep pre /\ starts_with_sep sep post)).
Proof.
  induction s as [|c s IH]; intros cur b t Hcur Hb Ht; simpl.
  - split.
    + intros [<-|[]]. left. exists [], []. rewrite app_nil_r.
      repeat split; [constructor | by left].
    + intros [(t' & post & -> & Hs & _ & _)|(pre & post & Hs & _ & (p & c & -> & _) & _)].
      * symmetry in Hs. apply app_eq_nil in Hs as [-> _]. rewrite app_nil_r. by left.
      * destruct p; discriminate.
  - destruct (sep c) eqn:Hc.
    + assert (Hemit : In t (split_go sep [] true s) <->
                (exists post, s = t ++ post /\ sep_free sep t /\ starts_with_sep sep post) \/
                (exists pre post, s = pre ++ t ++ post /\ sep_free sep t /\
                                  ends_with_sep sep pre /\ starts_with_sep sep post)).
      { rewrite (IH [] true t); [|constructor|done|done]. simpl. split.
        - intros [(t' & post & -> & ? & ? & ?)|?]; [left; eauto|by right].
        - intros [(post & ? & ? & ?)|?]; [left; exists t, post; eauto|by right]. }
      assert (Hrhs :
        ((exists t' post, t = rev cur ++ t' /\ c :: s = t' ++ post /\ sep_free sep t' /\
                          starts_with_sep sep post) \/
         (exists pre post, c :: s = pre ++ t ++ post /\ sep_free sep t /\
                           ends_with_sep sep pre /\ starts_with_sep sep post)) <->
        (t = rev cur \/ In t (split_go sep [] true s))).
      { rewrite Hemit. split.
        - intros [(t' & post & -> & Hs & Ht' & _)|(pre & post & Hs & Hfree & (p & c' & -> & Hc') & Hpost)].
          + destruct t' as [|c' t'].
            * left. by rewrite app_nil_r.
            * injection Hs as <- _. inversion Ht'; congruence.
          + right. destruct p as [|c0 p]; simpl in Hs; injection Hs as <- ->.
            * left. eauto.
            * right. exists (p ++ [c']), post. repeat split; eauto. by exists p, c'.
        - intros [->|[(post & -> & Hfree & Hpost)|(pre & post & -> & Hfree & (p & c' & -> & Hc') & Hpost)]].
          + left. exists [], (c :: s). rewrite app_nil_r.
            repeat split; [constructor|]. right. eauto.
          + right. exists [c], post. repeat split; eauto. by exists [], c.
          + right. exists (c :: p ++ [c']), post. repeat split; eauto.
            by exists (c :: p), c'. }
      rewrite Hrhs. destruct b; simpl.
      * rewrite (Hb eq_refl). simpl. split; [by right|].
        intros [->|?]; [done|done].
      * split; intros [?|?]; eauto.
    + rewrite (IH (c :: cur) false t); [|by constructor|done|done]. simpl.
      split.
      * intros [(t' & post & -> & -> & Hfree & Hpost)|(pre & post & -> & Hfree & (p & c' & -> & Hc') & Hpost)].
        -- left. exists (c :: t'), post. rewrite <- app_assoc. simpl.
           repeat split; eauto. by constructor.
        -- right. exists (c :: p ++ [c']), post. repeat split; eauto.
           by exists (c :: p), c'.
      * intros [(t' & post & -> & Hs & Hfree & Hpost)|(pre & post & Hs & Hfree & (p & c' & -> & Hc') & Hpost)].
        -- destruct t' as [|c0 t'].
           ++ simpl in Hs. subst post. destruct Hpost as [?|(c1 & p1 & [= <- <-] & ?)];
                [done|congruence].
           ++ injection Hs as <- ->. left. exists t', post. rewrite <- app_assoc.
              inversion Hfree; subst. repeat split; eauto.
        -- right. destruct p as [|c0 p]; simpl in Hs; injection Hs as <- ->.
           ++ congruence.
           ++ exists (p ++ [c']), post. repeat split; eauto. by exists p, c'.
Qed.

(** A non-empty string is produced by [split] exactly when it is a maximal
    separator-free piece of the input. *)
Lemma split_tokens (s t : js_string) :
  t <> [] -> (In t (split sep s) <-> token_of sep s t).
Proof.
  intros Ht. unfold split. rewrite split_go_tokens; [|constructor|done|done].
  unfold token_of. simpl. split.
  - intros [(t' & post & -> & -> & ? & ?)|(pre & post & -> & ? & ? & ?)].
    + exists [], post. eauto.
    + exists pre, post. eauto.
  - intros (pre & post & -> & ? & [->|?] & ?).
    + left. exists t, post. eauto.
    + right. exists pre, post. eauto.
Qed.

End Split.

(** ** The hashtag fan-out *)

Lemma insert_tags_run faults snapId tags : forall i w d,
  tx w = Some d ->
  insert_tags faults snapId tags i w =
    (Ok tt, set_tx w (Some (tags_after faults snapId tags i d))).
Proof.
  induction tags as [|tag rest IH]; intros i w d Hw; simpl.
  - unfold ret. destruct w; simpl in *; by subst.
  - unfold bind, try_catch, client_query.
    destruct (faults (SInsertTag i)); simpl.
    + by apply IH.
    + rewrite Hw. simpl. erewrite IH; [|reflexivity]. by destruct w.
Qed.

Lemma tag_row_eqb_eq (a b : TagRow) : tag_row_eqb a b = true <-> a = b.
Proof.
  unfold tag_row_eqb. destruct a as [i s], b as [j t]; simpl.
  rewrite andb_true_iff, N.eqb_eq, bool_decide_eq_true. split.
  - by intros [-> ->].
  - by intros [= -> ->].
Qed.

Lemma existsb_tag_row (row : TagRow) (l : list TagRow) :
  existsb (tag_row_eqb row) l = true <-> In row l.
Proof.
  rewrite existsb_exists. split.
  - intros (x & Hx & Heq). apply tag_row_eqb_eq in Heq. by subst.
  - intros Hin. exists row. split; [done|]. by apply tag_row_eqb_eq.
Qed.

Lemma insert_tag_frame row d :
  users (insert_tag_on_conflict_do_nothing row d) = users d /\
  snaps (insert_tag_on_conflict_do_nothing row d) = snaps d.
Proof. unfold insert_tag_on_conflict_do_nothing. by destruct (existsb _ _). Qed.

Lemma insert_tag_In row d r :
  In r (snaps_hashtags (insert_tag_on_conflict_do_nothing row d)) <->
  In r (snaps_hashtags d) \/ r = row.
Proof.
  unfold insert_tag_on_conflict_do_nothing.
  destruct (existsb _ _) eqn:He; simpl.
  - apply existsb_tag_row in He. split; [by left|]. by intros [?| ->].
  - rewrite in_app_iff. simpl. intuition congruence.
Qed.

Lemma insert_tag_NoDup row d :
  List.NoDup (snaps_hashtags d) ->
  List.NoDup (snaps_hashtags (insert_tag_on_conflict_do_nothing row d)).
Proof.
  intros Hnd. unfold insert_tag_on_conflict_do_nothing.
  destruct (existsb _ _) eqn:He; simpl; [done|].
  apply NoDup_ListNoDup, NoDup_app. rewrite NoDup_ListNoDup. split; [done|].
  split; [|apply NoDup_singleton].
  intros x Hx Hx'. apply list_elem_of_singleton in Hx'. subst.
  apply list_elem_of_In, existsb_tag_row in Hx. congruence.
Qed.

(** A pair that is already there is skipped: no error, no change. *)
Lemma insert_tag_duplicate row d :
  In row (snaps_hashtags d) -> insert_tag_on_conflict_do_nothing row d = d.
Proof.
  intros Hin. unfold insert_tag_on_conflict_do_nothing.
  apply existsb_tag_row in Hin. by rewrite Hin.
Qed.

Lemma tags_after_frame faults snapId tags : forall i d,
  users (tags_after faults snapId tags i d) = users d /\
  snaps (tags_after faults snapId tags i d) = snaps d.
Proof.
  induction tags as [|tag rest IH]; intros i d; simpl; [done|].
  destruct (IH (S i) (if faults (SInsertTag i) then d
                      else insert_tag_on_conflict_do_nothing (snapId, tag) d))
    as [-> ->].
  destruct (faults _); [done|]. apply insert_tag_frame.
Qed.

Lemma tags_after_In snapId tags : forall i d r,
  In r (snaps_hashtags (tags_after no_faults snapId tags i d)) <->
  In r (snaps_hashtags d) \/ (fst r = snapId /\ In (snd r) tags).
Proof.
  induction tags as [|tag rest IH]; intros i d r; simpl.
  - split; [by left|]. by intros [?|[_ []]].
  - rewrite IH, insert_tag_In. destruct r as [j t]; simpl. split.
    + intros [[?| [= -> ->]]|[? ?]]; eauto.
    + intros [?|[-> [<-|?]]]; eauto.
Qed.

Lemma tags_after_NoDup snapId tags : forall i d,
  List.NoDup (snaps_hashtags d) ->
  List.NoDup (snaps_hashtags (tags_after no_faults snapId tags i d)).
Proof.
  induction tags as [|tag rest IH]; intros i d Hnd; simpl; [done|].
  apply IH. by apply insert_tag_NoDup.
Qed.

Lemma index_hashtags_run faults snapId hashtags w d :
  tx w = Some d ->
  index_hashtags faults snapId hashtags w =
    (Ok tt, set_tx w (Some (tags_after faults snapId (upload_tags hashtags) 0 d))).
Proof.
  intros Hw. unfold index_hashtags. destruct hashtags as [|c h]; simpl.
  - unfold ret. destruct w; simpl in *; by subst.
  - by apply insert_tags_run.
Qed.

Lemma startsWith_sharp_nonempty t : startsWith_sharp t = true -> t <> [].
Proof. by destruct t. Qed.

Lemma upload_tags_tokens (hashtags tag : js_string) :
  In tag (upload_tags hashtags) <->
  startsWith_sharp tag = true /\ token_of is_space_or_comma hashtags tag.
Proof.
  unfold upload_tags. rewrite filter_In. split.
  - intros [Hin Hs]. split; [done|].
    apply split_tokens; [by apply startsWith_sharp_nonempty|done].
  - intros [Hs Htok]. split; [|done].
    apply split_tokens; [by apply startsWith_sharp_nonempty|done].
Qed.

(** C8.  The hashtag fan-out of an upload cuts the raw string at runs of
    whitespace and commas and keeps the pieces that begin with '#': a string
    is a tag exactly when it begins with '#' and is a maximal separator-free
    piece of the raw string.  Run inside the transaction with no INSERT
    refused, the loop completes, touches neither users nor snaps, keeps the
    association rows free of duplicates and adds exactly the pairs of the
    snap with its tags; inserting a pair that is already there changes
    nothing and raises nothing.  The raw string "#foo, #bar  baz" leaves the
    snap with the tags #foo and #bar and nothing else. *)
Theorem hashtag_fanout :
  (forall hashtags tag,
     In tag (upload_tags hashtags) <->
     startsWith_sharp tag = true /\ token_of is_space_or_comma hashtags tag) /\
  (forall snapId hashtags w d,
     tx w = Some d -> List.NoDup (snaps_hashtags d) ->
     exists d',
       index_hashtags no_faults snapId hashtags w = (Ok tt, set_tx w (Some d')) /\
       users d' = users d /\ snaps d' = snaps d /\
       List.NoDup (snaps_hashtags d') /\
       forall r, In r (snaps_hashtags d') <->
                 In r (snaps_hashtags d) \/
                 (fst r = snapId /\ In (snd r) (upload_tags hashtags))) /\
  (forall row d,
     In row (snaps_hashtags d) -> insert_tag_on_conflict_do_nothing row d = d) /\
  (forall snapId w,
     tx w = Some empty_db ->
     exists d',
       index_hashtags no_faults snapId (lit "#foo, #bar  baz") w =
         (Ok tt, set_tx w (Some d')) /\
       snaps_hashtags d' = [(snapId, lit "#foo"); (snapId, lit "#bar")]).
Proof.
  split; [apply upload_tags_tokens|]. split; [|split].
  - intros snapId hashtags w d Hw Hnd.
    exists (tags_after no_faults snapId (upload_tags hashtags) 0 d).
    split; [by apply index_hashtags_run|].
    destruct (tags_after_frame no_faults snapId (upload_tags hashtags) 0 d) as [-> ->].
    repeat split; [by apply tags_after_NoDup| |]; apply tags_after_In.
  - apply insert_tag_duplicate.
  - intros snapId w Hw. eexists. split; [by apply index_hashtags_run|].
    simpl. unfold insert_tag_on_conflict_do_nothing, tag_row_eqb. simpl.
    rewrite N.eqb_refl. reflexivity.
Qed.

Lemma hashtag_fanout_witness :
  In (lit "#bar") (upload_tags (lit "#foo, #bar  baz")) /\
  token_of is_space_or_comma (lit "#foo, #bar  baz") (lit "#bar") /\
  exists d',
    index_hashtags no_faults 7%N (lit "#foo, #bar  baz")
      {| committed := empty_db; tx := Some empty_db; files := ∅; emitted := [] |} =
      (Ok tt, set_tx {| committed := empty_db; tx := Some empty_db;
                        files := ∅; emitted := [] |} (Some d')) /\
    snaps_hashtags d' = [(7%N, lit "#foo"); (7%N, lit "#bar")].
Proof.
  assert (Hin : In (lit "#bar") (upload_tags (lit "#foo, #bar  baz")))
    by (vm_compute; tauto).
  split; [exact Hin|]. split.
  - exact (proj2 (proj1 (proj1 hashtag_fanout _ _) Hin)).
  - exact (proj2 (proj2 (proj2 hashtag_fanout)) 7%N
             {| committed := empty_db; tx := Some empty_db; files := ∅;
                emitted := [] |} eq_refl).
Defined.

(** On a raw string without a comma the two tokenizers agree. *)
Lemma split_comma_free (s : js_string) : forall cur b,
  Forall (fun c => c <> comma) s ->
  split_go is_space_or_comma cur b s = split_go is_space cur b s.
Proof.
  induction s as [|c s IH]; intros cur b Hs; simpl; [done|].
  inversion Hs as [|? ? Hc Hs']; subst.
  unfold is_space_or_comma at 1.
  replace (c =? comma)%N with false by (symmetry; by apply N.eqb_neq).
  rewrite orb_false_r. destruct (is_space c), b; by rewrite ?IH.
Qed.

(** X21.  On a raw string without a comma the two tokenizers agree: the
    fallback of the feed returns the tag list that the upload indexes. *)
Lemma fallback_tags_comma_free (hashtags : js_string) :
  Forall (fun c => c <> comma) hashtags ->
  fallback_tags hashtags = upload_tags hashtags.
Proof.
  intros Hs. unfold fallback_tags, upload_tags, split.
  by rewrite split_comma_free.
Qed.

(** C4.  The fallback of the feed cuts the raw string at whitespace only,
    whereas the upload cuts at whitespace and commas: on "#foo, #bar  baz"
    the upload indexes #foo and #bar, and the fallback of a feed row that has
    no aggregated list displays "#foo," (with the comma) and #bar. *)
Theorem fallback_tokenizer_keeps_commas :
  upload_tags (lit "#foo, #bar  baz") = [lit "#foo"; lit "#bar"] /\
  fallback_tags (lit "#foo, #bar  baz") = [lit "#foo,"; lit "#bar"] /\
  process_hashtag_list (Some (lit "#foo, #bar  baz")) None
    = [lit "#foo,"; lit "#bar"] /\
  fallback_tags (lit "#foo, #bar  baz") <> upload_tags (lit "#foo, #bar  baz").
Proof. repeat split; [vm_compute; congruence]. Qed.

(** ** The upload transaction *)

Ltac run_upload :=
  cbv [upload_handler try_catch upload_try upload_catch bind client_begin
       client_query client_commit client_rollback readFileSync unlinkSync ret
       throw early modify select_user insert_snap response_of];
  repeat (first [ erewrite index_hashtags_run by reflexivity
                | match goal with
                  | H : index_hashtags _ _ _ _ = _ |- _ =>
                      erewrite index_hashtags_run in H by reflexivity
                  end
                | case_match ]; simplify_eq/=).

Section UploadFacts.
Variable jwt_verify : js_string -> option Id.
Variable faults : Faults.
Variables (env : UploadEnv) (req : Request) (file : File).

Let handler := upload_handler jwt_verify faults env req file.

(** Either the upload goes through, and then every step succeeded and the
    committed tables gain the new row and its tags, or nothing is
    committed. *)
Lemma upload_outcome (w : World) :
  (exists token userId u rest data,
     bearer_token (req_authorization req) = Some token /\
     jwt_verify token = Some userId /\
     List.filter (fun u => (u_id u =? userId)%N) (users (committed w)) = u :: rest /\
     files w !! f_path file = Some data /\
     existsb (fun s => (s_id s =? new_id env)%N) (snaps (committed w)) = false /\
     faults SBegin = false /\ faults SSelectUser = false /\
     faults SInsertSnap = false /\ faults SCommit = false /\
     let hashtags := default [] (req_body req !! "hashtags") in
     let row := new_snap_row env req file userId data hashtags
                  (setHours_plus12 (zone env) (app_now env)) in
     exists dto,
       fst (handler w) = Ok (Created dto) /\
       dto_id dto = new_id env /\
       committed (snd (handler w)) =
         tags_after faults (new_id env) (upload_tags hashtags) 0
           (set_snaps (committed w) (snaps (committed w) ++ [row])) /\
       files (snd (handler w)) = delete (f_path file) (files w))
  \/
  ((forall dto, response_of (fst (handler w)) <> Some (Created dto)) /\
   committed (snd (handler w)) = committed w).
Proof.
  subst handler. run_upload.
  all: try (right; split; [done|reflexivity]).
  left. do 5 eexists. repeat split; eauto.
Qed.

(** When the [try] block throws, wherever it does, the [catch] block leaves
    the committed tables as they were and the temporary file gone; it ends
    in the 500 when ROLLBACK goes through and in an exception when ROLLBACK
    is refused. *)
Lemma upload_thrown (w : World) :
  fst (upload_try jwt_verify faults env req file w) = Thrown ->
  committed (snd (handler w)) = committed w /\
  files (snd (handler w)) !! f_path file = None /\
  fst (handler w) = (if faults SRollback then Thrown else Ok ServerError) /\
  (faults SRollback = false -> tx (snd (handler w)) = None).
Proof.
  subst handler. run_upload.
  all: intros; simplify_eq/=.
  all: repeat split; try done; try apply lookup_delete_eq; try congruence.
Qed.

(** The step after the INSERTs that can fail for the database's reasons is
    COMMIT: when it is refused, the [try] block throws with the snap in the
    working copy of the transaction. *)
Lemma upload_commit_refused (w : World) token userId u rest data :
  bearer_token (req_authorization req) = Some token ->
  jwt_verify token = Some userId ->
  List.filter (fun u => (u_id u =? userId)%N) (users (committed w)) = u :: rest ->
  files w !! f_path file = Some data ->
  existsb (fun s => (s_id s =? new_id env)%N) (snaps (committed w)) = false ->
  faults SBegin = false -> faults SSelectUser = false ->
  faults SInsertSnap = false -> faults SCommit = true ->
  fst (upload_try jwt_verify faults env req file w) = Thrown /\
  exists d,
    tx (snd (upload_try jwt_verify faults env req file w)) = Some d /\
    In (new_snap_row env req file userId data
          (default [] (req_body req !! "hashtags"))
          (setHours_plus12 (zone env) (app_now env))) (snaps d).
Proof.
  intros Htok Hjwt Hrows Hfile Hfresh HB HS HI HC.
  unfold upload_try, bind, client_begin. rewrite HB, Htok, Hjwt.
  unfold client_query. rewrite HS. simpl. rewrite Hrows.
  unfold readFileSync. simpl. rewrite Hfile, HI. simpl.
  unfold insert_snap. simpl. rewrite Hfresh.
  erewrite index_hashtags_run by reflexivity.
  unfold unlinkSync, client_commit. simpl. rewrite Hfile, HC. simpl.
  split; [reflexivity|]. eexists. split; [reflexivity|].
  rewrite (proj2 (tags_after_frame _ _ _ _ _)). simpl.
  apply in_app_iff. right. by left.
Qed.

End UploadFacts.

Example ex_upload_runs :
  fst (api_snaps_post ex_jwt no_faults ex_env (ex_req "t1") ex_world) =
    Some (Created {| dto_id := 10%N; dto_username := lit "alice";
                     dto_imageUrl := 10%N; dto_caption := Some (lit "hello");
                     dto_location := []; dto_createdAt := 1000 |}) /\
  map s_id (snaps (committed (snd
    (api_snaps_post ex_jwt no_faults ex_env (ex_req "t1") ex_world)))) = [10%N].
Proof. split; vm_compute; reflexivity. Qed.

Lemma authenticateToken_not_created jwt_verify req r dto :
  authenticateToken jwt_verify req = Some r -> r <> Created dto.
Proof.
  unfold authenticateToken. repeat case_match; by intros [= <-].
Qed.






(** C5.  The code at an input where the caller is left without the
    server-fault response.  A known user uploads a staged file; COMMIT is
    refused after the snap and its two tags have been inserted, and the
    ROLLBACK of the [catch] block is refused too, as both are once the
    connection is lost.  The [try] block throws with the snap in the working
    copy of the transaction; the [catch] block removes the staged file and
    throws at the ROLLBACK of line 420, before the 500 of line 427.  Nothing
    is committed and the file is gone, as the claim has it, but no response
    is sent. *)
Lemma failed_upload_without_response :
  fst (upload_try ex_jwt (refusing [SCommit; SRollback]) ex_env (ex_req "t1")
         ex_file ex_world) = Thrown /\
  (exists d,
     tx (snd (upload_try ex_jwt (refusing [SCommit; SRollback]) ex_env
                (ex_req "t1") ex_file ex_world)) = Some d /\
     map s_id (snaps d) = [10%N] /\ length (snaps_hashtags d) = 2%nat) /\
  fst (api_snaps_post ex_jwt (refusing [SCommit; SRollback]) ex_env (ex_req "t1")
         ex_world) = None /\
  fst (api_snaps_post ex_jwt (refusing [SCommit; SRollback]) ex_env (ex_req "t1")
         ex_world) <> Some ServerError /\
  committed (snd (api_snaps_post ex_jwt (refusing [SCommit; SRollback]) ex_env
                    (ex_req "t1") ex_world)) = ex_db /\
  files (snd (api_snaps_post ex_jwt (refusing [SCommit; SRollback]) ex_env
                (ex_req "t1") ex_world)) !! "public/uploads/0b5e.png" = None.
Proof.
  split; [vm_compute; reflexivity|]. split.
  { eexists. split; [vm_compute; reflexivity|]. split; reflexivity. }
  assert (H : fst (api_snaps_post ex_jwt (refusing [SCommit; SRollback]) ex_env
                     (ex_req "t1") ex_world) = None) by (vm_compute; reflexivity).
  split; [exact H|]. split; [rewrite H; discriminate|].
  split; vm_compute; reflexivity.
Qed.

Section OwnerLookup.
Variable jwt_verify : js_string -> option Id.
Variable faults : Faults.
Variables (env : UploadEnv) (req : Request) (file : File).



End OwnerLookup.

Lemma filter_nil_iff {A} (f : A -> bool) (l : list A) :
  List.filter f l = [] <-> forall x, In x l -> f x = false.
Proof.
  induction l as [|a l IH]; simpl; [done|].
  destruct (f a) eqn:Ha.
  - split; [done|]. intros H. specialize (H a (or_introl eq_refl)). congruence.
  - rewrite IH. split.
    + intros H x [<-|Hx]; eauto.
    + intros H x Hx. apply H. by right.
Qed.




(** ** The cleanup job *)

Lemma filter_all {A} (f : A -> bool) (l : list A) :
  (forall x, In x l -> f x = true) -> List.filter f l = l.
Proof.
  induction l as [|a l IH]; simpl; intros H; [done|].
  rewrite (H a (or_introl eq_refl)). f_equal. apply IH. intros x Hx. apply H. by right.
Qed.

Lemma filter_none {A} (f : A -> bool) (l : list A) :
  (forall x, In x l -> f x = false) -> List.filter f l = [].
Proof. apply filter_nil_iff. Qed.

Lemma cascade_tags_nil tags : cascade_tags [] tags = tags.
Proof. unfold cascade_tags. by apply filter_all. Qed.

Lemma cleanup_run faults now w :
  faults SBegin = false -> faults SDeleteExpired = false -> faults SCommit = false ->
  cleanupExpiredSnaps faults now w =
    (Ok (Some (map (fun s => (s_id s, s_image_url s))
                   (List.filter (stale now) (snaps (committed w))))),
     set_tx (set_committed w (reaped now (committed w))) None).
Proof.
  intros HB HD HC.
  unfold cleanupExpiredSnaps, try_catch, bind, client_begin, client_query,
    client_commit, ret.
  rewrite HB. simpl. rewrite HD. simpl. rewrite HC. reflexivity.
Qed.

(** Whatever is refused, a pass commits the deletion or commits nothing. *)
Lemma cleanup_committed faults now w :
  committed (snd (cleanupExpiredSnaps faults now w)) = reaped now (committed w) \/
  committed (snd (cleanupExpiredSnaps faults now w)) = committed w.
Proof.
  unfold cleanupExpiredSnaps, try_catch, bind, client_begin, client_query,
    client_commit, client_rollback, ret, delete_expired.
  repeat (case_match; simplify_eq/=); auto.
Qed.

Lemma reaped_fresh now d :
  (forall s, In s (snaps d) -> stale now s = false) -> reaped now d = d.
Proof.
  intros H. unfold reaped. rewrite (filter_none (stale now)) by done.
  rewrite cascade_tags_nil, filter_all; [by destruct d|].
  intros s Hs. by rewrite H.
Qed.

(** C6.  A pass of the reaper whose three statements go through returns the
    rows of the snaps created more than 12 hours before [now], and commits
    the table without them: a snap of the old table is in the new one
    exactly when [created_at >= now - 12h], so that every remaining snap
    satisfies it.  A further pass, at a time at which no remaining snap has
    become stale (the same [now], for one), again goes through, deletes no
    row and leaves the tables as they are. *)
Theorem reaper_pass_deletes_stale_snaps_and_is_idempotent :
  forall faults now w,
    faults SBegin = false -> faults SDeleteExpired = false ->
    faults SCommit = false ->
    exists w',
      cleanupExpiredSnaps faults now w =
        (Ok (Some (map (fun s => (s_id s, s_image_url s))
                       (List.filter (stale now) (snaps (committed w))))), w') /\
      snaps (committed w') =
        List.filter (fun s => negb (stale now s)) (snaps (committed w)) /\
      (forall s, In s (snaps (committed w')) <->
                 In s (snaps (committed w)) /\ now - TTL <= s_created_at s) /\
      (forall s, In s (snaps (committed w')) -> s_created_at s >= now - TTL) /\
      (forall faults2 now2,
         faults2 SBegin = false -> faults2 SDeleteExpired = false ->
         faults2 SCommit = false ->
         (forall s, In s (snaps (committed w')) -> now2 - TTL <= s_created_at s) ->
         exists w'',
           cleanupExpiredSnaps faults2 now2 w' = (Ok (Some []), w'') /\
           committed w'' = committed w') /\
      (exists w'',
         cleanupExpiredSnaps faults now w' = (Ok (Some []), w'') /\
         committed w'' = committed w').
Proof.
  intros faults now w HB HD HC.
  eexists. split; [by apply cleanup_run|]. simpl.
  assert (Hin : forall s,
            In s (List.filter (fun s => negb (stale now s)) (snaps (committed w))) <->
            In s (snaps (committed w)) /\ now - TTL <= s_created_at s).
  { intros s. rewrite filter_In. unfold stale.
    rewrite negb_true_iff, Z.ltb_ge. done. }
  assert (Hagain : forall faults2 now2,
            faults2 SBegin = false -> faults2 SDeleteExpired = false ->
            faults2 SCommit = false ->
            (forall s, In s (List.filter (fun s => negb (stale now s))
                               (snaps (committed w))) ->
                       now2 - TTL <= s_created_at s) ->
            exists w'',
              cleanupExpiredSnaps faults2 now2
                (set_tx (set_committed w (reaped now (committed w))) None)
                = (Ok (Some []), w'') /\
              committed w'' = reaped now (committed w)).
  { intros faults2 now2 HB2 HD2 HC2 Hfresh.
    eexists. split.
    - rewrite cleanup_run by done. simpl.
      rewrite (filter_none (stale now2)); [reflexivity|].
      intros s Hs. unfold stale. apply Z.ltb_ge. by apply Hfresh.
    - simpl. apply reaped_fresh. simpl.
      intros s Hs. unfold stale. apply Z.ltb_ge. by apply Hfresh. }
  split; [done|]. split; [exact Hin|]. split; [|split].
  - intros s Hs. apply Hin in Hs. lia.
  - exact Hagain.
  - apply Hagain; try done. intros s Hs. by apply Hin in Hs as [_ ?].
Qed.

Lemma reaper_pass_deletes_stale_snaps_and_is_idempotent_witness :
  exists w',
    fst (cleanupExpiredSnaps no_faults ex_now ex_world2) =
      Ok (Some [(20%N, s_image_url ex_old)]) /\
    snd (cleanupExpiredSnaps no_faults ex_now ex_world2) = w' /\
    snaps (committed w') = [ex_recent] /\
    exists w'',
      cleanupExpiredSnaps no_faults ex_now w' = (Ok (Some []), w'') /\
      committed w'' = committed w'.
Proof.
  destruct (reaper_pass_deletes_stale_snaps_and_is_idempotent no_faults ex_now
              ex_world2 eq_refl eq_refl eq_refl)
    as (w' & Hrun & Hsnaps & _ & _ & _ & Hagain).
  exists w'. rewrite Hrun. split; [reflexivity|]. split; [reflexivity|].
  split; [rewrite Hsnaps; reflexivity|]. exact Hagain.
Defined.

(** ** The feed query *)

#[local] Instance newer_first_trans : Transitive newer_first.
Proof. intros a b c. unfold newer_first. lia. Qed.

#[local] Instance newer_first_total : Total newer_first.
Proof. intros a b. unfold newer_first. lia. Qed.

(** The executable window is one of the windows the query may return. *)
Lemma snap_data_exec_admissible d limit offset :
  snap_data d limit offset (snap_data_exec d limit offset).
Proof.
  exists (merge_sort newer_first (snaps d)). split; [|split; [|done]].
  - apply merge_sort_Permutation.
  - apply StronglySorted_merge_sort; apply _.
Qed.

Lemma api_feed_exec_admissible faults q_page q_limit d :
  api_feed faults q_page q_limit d (api_feed_exec faults q_page q_limit d).
Proof.
  unfold api_feed, api_feed_exec.
  destruct (faults SSelectFeed || faults SSelectCount); [done|].
  eexists. split; [apply snap_data_exec_admissible|done].
Qed.

Lemma api_feed_ok_inv faults q_page q_limit d items pg :
  api_feed faults q_page q_limit d (FeedOk items pg) ->
  exists rows,
    snap_data d (feed_limit q_limit)
      (feed_offset (feed_page_number q_page) (feed_limit q_limit)) rows /\
    items = map (feed_item d) rows /\
    pg = feed_pagination q_page q_limit d.
Proof.
  unfold api_feed. destruct (_ || _); [done|].
  intros (rows & Hrows & [= -> ->]). eauto.
Qed.

Lemma api_feed_inv faults q_page q_limit d resp :
  api_feed faults q_page q_limit d resp ->
  resp = ServerError \/
  exists rows,
    snap_data d (feed_limit q_limit)
      (feed_offset (feed_page_number q_page) (feed_limit q_limit)) rows /\
    resp = FeedOk (map (feed_item d) rows) (feed_pagination q_page q_limit d).
Proof.
  unfold api_feed. destruct (_ || _); [by left|]. by right.
Qed.

Lemma In_take_drop {A} (l : list A) n m x : In x (take n (drop m l)) -> In x l.
Proof.
  intros H. apply list_elem_of_In. apply list_elem_of_In in H.
  eapply subseteq_drop, subseteq_take, H.
Qed.

Lemma snap_data_In d limit offset rows s :
  snap_data d limit offset rows -> In s rows -> In s (snaps d).
Proof.
  intros (l & Hperm & _ & ->) Hin. apply In_take_drop in Hin.
  by eapply Permutation_in.
Qed.

Lemma StronglySorted_take_drop {A} (R : relation A) (l : list A) n m :
  StronglySorted R l -> StronglySorted R (take n (drop m l)).
Proof.
  intros Hl. rewrite <- (take_drop m l) in Hl.
  apply StronglySorted_app_1_r in Hl.
  rewrite <- (take_drop n (drop m l)) in Hl.
  by apply StronglySorted_app_1_l in Hl.
Qed.

Lemma StronglySorted_map_rel {A B} (R : relation A) (S : relation B) (f : A -> B)
    (l : list A) :
  (forall a b, R a b -> S (f a) (f b)) ->
  StronglySorted R l -> StronglySorted S (map f l).
Proof.
  intros Hf. induction 1 as [|a l Hl IH Hall]; simpl; constructor; [done|].
  apply Forall_map. eapply Forall_impl; [exact Hall|]. intros b. apply Hf.
Qed.

#[local] Instance descending_antisymm : AntiSymm (=) descending.
Proof. intros a b. unfold descending. lia. Qed.

(** The query fixes the sequence of timestamps of a window, not more. *)
Lemma snap_data_timestamps d limit offset rows1 rows2 :
  snap_data d limit offset rows1 -> snap_data d limit offset rows2 ->
  map s_created_at rows1 = map s_created_at rows2.
Proof.
  intros (l1 & Hp1 & Hs1 & ->) (l2 & Hp2 & Hs2 & ->).
  rewrite <- !firstn_map, <- !skipn_map. f_equal. f_equal.
  apply (StronglySorted_unique descending).
  - eapply StronglySorted_map_rel; [|exact Hs1]. done.
  - eapply StronglySorted_map_rel; [|exact Hs2]. done.
  - apply Permutation_map. by rewrite Hp1, Hp2.
Qed.

(** ** What the read routes look at *)

Lemma same_read_columns_sym d1 d2 :
  same_read_columns d1 d2 -> same_read_columns d2 d1.
Proof. intros (? & ? & ?). by repeat split. Qed.

Lemma StronglySorted_map_inv {A B} (R : relation A) (S : relation B) (f : A -> B)
    (l : list A) :
  (forall a b, S (f a) (f b) -> R a b) ->
  StronglySorted S (map f l) -> StronglySorted R l.
Proof.
  intros Hf. induction l as [|a l IH]; simpl; intros Hs; [constructor|].
  apply StronglySorted_inv in Hs as [Hs Hall]. constructor; [by apply IH|].
  apply (proj1 (Forall_map f (S (f a)) l)) in Hall.
  eapply Forall_impl; [exact Hall|]. intros b. apply Hf.
Qed.

Lemma read_columns_created l1 l2 :
  map read_columns l1 = map read_columns l2 ->
  map s_created_at l1 = map s_created_at l2.
Proof.
  intros H. apply (f_equal (map snd)) in H.
  by rewrite !map_map in H.
Qed.

Lemma read_columns_sorted l1 l2 :
  map read_columns l1 = map read_columns l2 ->
  StronglySorted newer_first l1 -> StronglySorted newer_first l2.
Proof.
  intros H Hs. apply read_columns_created in H.
  apply (StronglySorted_map_inv newer_first descending s_created_at l2).
  { done. }
  rewrite <- H.
  apply (StronglySorted_map_rel newer_first descending s_created_at l1); done.
Qed.

Lemma feed_item_columns d1 d2 s1 s2 :
  users d1 = users d2 -> snaps_hashtags d1 = snaps_hashtags d2 ->
  read_columns s1 = read_columns s2 -> feed_item d1 s1 = feed_item d2 s2.
Proof.
  intros Hu Ht [= Hid Huid _ Hcap Htags Hloc _ _ Hcr].
  unfold feed_item, agg_tags. by rewrite Hu, Ht, Hid, Huid, Hcap, Htags, Hloc, Hcr.
Qed.

Lemma map_cons_inv {A B} (f : A -> B) a l b l' :
  map f (a :: l) = map f (b :: l') -> f a = f b /\ map f l = map f l'.
Proof. simpl. by intros [= ? ?]. Qed.

Lemma feed_items_columns d1 d2 l1 : forall l2,
  users d1 = users d2 -> snaps_hashtags d1 = snaps_hashtags d2 ->
  map read_columns l1 = map read_columns l2 ->
  map (feed_item d1) l1 = map (feed_item d2) l2.
Proof.
  induction l1 as [|s1 l1 IH]; intros [|s2 l2] Hu Ht H; try done.
  apply map_cons_inv in H as [Hs Hl].
  simpl. f_equal; [by apply feed_item_columns|by apply IH].
Qed.

Lemma same_read_columns_feed faults q_page q_limit d1 d2 resp :
  same_read_columns d1 d2 ->
  api_feed faults q_page q_limit d1 resp -> api_feed faults q_page q_limit d2 resp.
Proof.
  intros (Hu & Ht & Hs). unfold api_feed.
  destruct (_ || _); [done|].
  intros (rows & (l1 & Hp & Hsorted & ->) & ->).
  assert (Hp' : map read_columns l1 ≡ₚ map read_columns (snaps d2)).
  { rewrite <- Hs. by apply Permutation_map. }
  apply Permutation_map_inv in Hp' as (l2 & Hl & Hp2).
  exists (take (Z.to_nat (feed_limit q_limit))
            (drop (Z.to_nat (feed_offset (feed_page_number q_page)
                               (feed_limit q_limit))) l2)).
  split.
  - exists l2. split; [by symmetry|]. split; [|done].
    by eapply read_columns_sorted.
  - f_equal.
    + apply feed_items_columns; try done.
      by rewrite <- !firstn_map, <- !skipn_map, Hl.
    + unfold feed_pagination, count_snaps.
      apply (f_equal (@length _)) in Hs. rewrite !length_map in Hs.
      by rewrite Hs.
Qed.

Lemma same_read_columns_image faults id d1 d2 :
  same_read_columns d1 d2 ->
  api_snaps_image faults id d1 = api_snaps_image faults id d2.
Proof.
  intros (_ & _ & Hs). unfold api_snaps_image.
  destruct id as [id|]; [|done]. destruct (faults _); [done|].
  revert Hs. generalize (snaps d2).
  induction (snaps d1) as [|s1 l1 IH]; intros [|s2 l2] Hs; try done.
  apply map_cons_inv in Hs as [[= Hid _ _ _ _ _ Hdata Hmime _] Hl].
  simpl. rewrite Hid. destruct (s_id s2 =? id)%N; [by rewrite Hdata, Hmime|by apply IH].
Qed.

Lemma join_users_columns d1 d2 s1 s2 :
  users d1 = users d2 -> snaps_hashtags d1 = snaps_hashtags d2 ->
  read_columns s1 = read_columns s2 -> join_users d1 s1 = join_users d2 s2.
Proof.
  intros Hu Ht [= Hid Huid Hurl Hcap Htags Hloc _ _ Hcr].
  unfold join_users. rewrite Hu, Huid. apply map_ext. intros u.
  unfold snap_view, agg_tags. by rewrite Ht, Hid, Hurl, Hcap, Htags, Hloc, Hcr.
Qed.

Lemma same_read_columns_select id d1 d2 :
  same_read_columns d1 d2 -> select_snap id d1 = select_snap id d2.
Proof.
  intros (Hu & Ht & Hs). unfold select_snap.
  revert Hs. generalize (snaps d2).
  induction (snaps d1) as [|s1 l1 IH]; intros [|s2 l2] Hs; try done.
  apply map_cons_inv in Hs as [Hrow Hl].
  assert (Hid : s_id s1 = s_id s2) by (by injection Hrow).
  simpl. rewrite Hid. destruct (s_id s2 =? id)%N; simpl; [|by apply IH].
  f_equal; [by apply join_users_columns|by apply IH].
Qed.

Lemma same_read_columns_get faults id d1 d2 :
  same_read_columns d1 d2 ->
  api_snaps_get faults id d1 = api_snaps_get faults id d2.
Proof.
  intros H. unfold api_snaps_get. destruct id as [id|]; [|done].
  by rewrite (same_read_columns_select id d1 d2).
Qed.

(** ** Visibility and expiry on the read routes *)

Lemma Forall2_read_columns (P : SnapRow -> SnapRow -> Prop) l1 l2 :
  (forall a b, P a b -> read_columns a = read_columns b) ->
  Forall2 P l1 l2 -> map read_columns l1 = map read_columns l2.
Proof.
  intros HP. induction 1 as [|a b l1 l2 Hab _ IH]; simpl; [done|].
  by rewrite (HP a b Hab), IH.
Qed.


Lemma expires_at_unread d1 d2 :
  differ_only_in_expires_at d1 d2 -> same_read_columns d1 d2.
Proof.
  intros (Hu & Ht & Hs). repeat split; try done.
  eapply Forall2_read_columns; [|exact Hs]. by intros a b ->.
Qed.

Lemma same_read_columns_reads d1 d2 :
  same_read_columns d1 d2 ->
  (forall f q_page q_limit resp,
     api_feed f q_page q_limit d1 resp <-> api_feed f q_page q_limit d2 resp) /\
  (forall f id, api_snaps_get f id d1 = api_snaps_get f id d2) /\
  (forall f id, api_snaps_image f id d1 = api_snaps_image f id d2).
Proof.
  intros H. split; [|split].
  - intros f q_page q_limit resp. split; apply same_read_columns_feed; [done|].
    by apply same_read_columns_sym.
  - intros f id. by apply same_read_columns_get.
  - intros f id. by apply same_read_columns_image.
Qed.


Lemma image_of_stored_snap f d s :
  In s (snaps d) -> f SSelectImage = false ->
  exists m b, api_snaps_image f (Some (s_id s)) d = ImageOk m b.
Proof.
  intros Hin Hf. unfold api_snaps_image. rewrite Hf.
  destruct (List.filter _ (snaps d)) as [|r l] eqn:Hrows; [|eauto].
  rewrite filter_nil_iff in Hrows. specialize (Hrows s Hin).
  by rewrite N.eqb_refl in Hrows.
Qed.

Lemma snap_of_stored_snap f d s u :
  In s (snaps d) -> In u (users d) -> u_id u = s_user_id s ->
  f SSelectSnap = false ->
  exists v, api_snaps_get f (Some (s_id s)) d = SnapOk v.
Proof.
  intros Hs Hu Huid Hf. unfold api_snaps_get. rewrite Hf.
  destruct (select_snap (s_id s) d) as [|v l] eqn:Hrows; [|eauto].
  exfalso. unfold select_snap in Hrows.
  assert (Hv : In (snap_view d s u) (flat_map (join_users d)
             (List.filter (fun s' => (s_id s' =? s_id s)%N) (snaps d)))).
  { apply in_flat_map. exists s. split.
    - apply filter_In. split; [done|]. apply N.eqb_refl.
    - unfold join_users. apply in_map, filter_In. split; [done|].
      by apply N.eqb_eq. }
  by rewrite Hrows in Hv.
Qed.

Lemma feed_limit_bounds q_limit : 1 <= feed_limit q_limit <= 50.
Proof. unfold feed_limit. lia. Qed.

Lemma feed_page_number_ge1 page : 1 <= page -> feed_page_number (Some page) = page.
Proof. intros H. unfold feed_page_number, parseInt_or. destruct page; lia. Qed.


(** A key selects its row and no other. *)
Lemma filter_key_unique {A} (key : A -> N) (l : list A) (a : A) :
  List.NoDup (map key l) -> In a l ->
  List.filter (fun x => (key x =? key a)%N) l = [a].
Proof.
  induction l as [|x l IH]; simpl; intros Hnd Ha; [done|].
  apply List.NoDup_cons_iff in Hnd as [Hx Hnd].
  destruct Ha as [->|Ha].
  - rewrite N.eqb_refl. f_equal. apply filter_none. intros y Hy.
    apply N.eqb_neq. intros Heq. apply Hx. rewrite <- Heq. by apply in_map.
  - destruct (key x =? key a)%N eqn:Heq; [|by apply IH].
    apply N.eqb_eq in Heq. exfalso. apply Hx. rewrite Heq. by apply in_map.
Qed.

Lemma find_key_unique {A} (key : A -> N) (l : list A) (a : A) :
  List.NoDup (map key l) -> In a l ->
  List.find (fun x => (key x =? key a)%N) l = Some a.
Proof.
  induction l as [|x l IH]; simpl; intros Hnd Ha; [done|].
  apply List.NoDup_cons_iff in Hnd as [Hx Hnd].
  destruct Ha as [->|Ha]; [by rewrite N.eqb_refl|].
  destruct (key x =? key a)%N eqn:Heq; [|by apply IH].
  apply N.eqb_eq in Heq. exfalso. apply Hx. rewrite Heq. by apply in_map.
Qed.







(** ** Expired snaps on the read routes *)

Lemma NoDup_map_inj {A B} (f : A -> B) (l : list A) a b :
  List.NoDup (map f l) -> In a l -> In b l -> f a = f b -> a = b.
Proof.
  induction l as [|x l IH]; simpl; [done|].
  intros Hnd Ha Hb Hf. apply List.NoDup_cons_iff in Hnd as [Hx Hnd].
  destruct Ha as [->|Ha], Hb as [->|Hb]; try done.
  - exfalso. apply Hx. rewrite Hf. by apply in_map.
  - exfalso. apply Hx. rewrite <- Hf. by apply in_map.
  - by apply IH.
Qed.

Lemma reaped_no_row now d s :
  List.NoDup (map s_id (snaps d)) -> In s (snaps d) ->
  s_created_at s < now - TTL ->
  List.filter (fun r => (s_id r =? s_id s)%N) (snaps (reaped now d)) = [].
Proof.
  intros Hnd Hs Hold. apply filter_nil_iff. intros r Hr. simpl in Hr.
  apply filter_In in Hr as [Hr Hfresh]. apply N.eqb_neq. intros Hid.
  assert (r = s) by (by eapply (NoDup_map_inj s_id)). subst r.
  unfold stale in Hfresh. apply negb_true_iff, Z.ltb_ge in Hfresh. lia.
Qed.

(** C1, as the code has it.  No read route looks at [expires_at]: two
    database states that differ only in the [expires_at] values of their
    snaps get the same responses from the feed, the single-snap and the
    image route.  What keeps a snap out of the read routes is its deletion:
    once a pass of the reaper has gone through at time [now] (over a table
    whose ids are distinct, [id] being the primary key), the feed lists
    only snaps created at or after [now - 12h], its total item count and its
    total page count are computed over those snaps alone, and for a snap
    created before [now - 12h] the feed omits it and the single-snap and the
    image route answer 404. *)
Theorem reads_ignore_expires_at_and_omit_reaped_snaps :
  (forall d1 d2,
     differ_only_in_expires_at d1 d2 ->
     (forall f q_page q_limit resp,
        api_feed f q_page q_limit d1 resp <-> api_feed f q_page q_limit d2 resp) /\
     (forall f id, api_snaps_get f id d1 = api_snaps_get f id d2) /\
     (forall f id, api_snaps_image f id d1 = api_snaps_image f id d2)) /\
  (forall faults now w,
     faults SBegin = false -> faults SDeleteExpired = false ->
     faults SCommit = false ->
     List.NoDup (map s_id (snaps (committed w))) ->
     let after := committed (snd (cleanupExpiredSnaps faults now w)) in
     let remaining :=
       List.filter (fun s => negb (stale now s)) (snaps (committed w)) in
     (forall f q_page q_limit items pg,
        api_feed f q_page q_limit after (FeedOk items pg) ->
        (forall it, In it items -> now - TTL <= fi_created_at it) /\
        pg_totalItems pg = Z.of_nat (length remaining) /\
        pg_totalPages pg =
          total_pages (Z.of_nat (length remaining)) (feed_limit q_limit)) /\
     (forall s, In s (snaps (committed w)) -> s_created_at s < now - TTL ->
        (forall f q_page q_limit items pg,
           api_feed f q_page q_limit after (FeedOk items pg) ->
           ~ In (s_id s) (map fi_id items)) /\
        (forall f, f SSelectSnap = false ->
           api_snaps_get f (Some (s_id s)) after = NotFound) /\
        (forall f, f SSelectImage = false ->
           api_snaps_image f (Some (s_id s)) after = NotFound))).
Proof.
  split.
  { intros d1 d2 Hd. apply same_read_columns_reads. by apply expires_at_unread. }
  intros faults now w HB HD HC Hnd after remaining.
  assert (Hafter : after = reaped now (committed w)).
  { subst after. by rewrite cleanup_run. }
  split.
  - intros f q_page q_limit items pg Hresp.
    apply api_feed_ok_inv in Hresp as (rows & Hrows & -> & ->).
    split; [|split].
    + intros it Hit. apply in_map_iff in Hit as (s & <- & Hs). simpl.
      eapply snap_data_In in Hs; [|exact Hrows].
      rewrite Hafter in Hs. simpl in Hs. apply filter_In in Hs as [_ Hs].
      unfold stale in Hs. by apply negb_true_iff, Z.ltb_ge in Hs.
    + simpl. unfold count_snaps. by rewrite Hafter.
    + simpl. unfold count_snaps. by rewrite Hafter.
  - intros s Hs Hold. pose proof (reaped_no_row now _ s Hnd Hs Hold) as Hnone.
    rewrite <- Hafter in Hnone. split; [|split].
    + intros f q_page q_limit items pg Hresp Hin.
      apply api_feed_ok_inv in Hresp as (rows & Hrows & -> & _).
      rewrite map_map in Hin. simpl in Hin.
      apply in_map_iff in Hin as (r & Hid & Hr).
      eapply snap_data_In in Hr; [|exact Hrows].
      rewrite filter_nil_iff in Hnone. specialize (Hnone r Hr).
      apply N.eqb_neq in Hnone. done.
    + intros f Hf. unfold api_snaps_get, select_snap. by rewrite Hf, Hnone.
    + intros f Hf. unfold api_snaps_image. by rewrite Hf, Hnone.
Qed.

Lemma reads_ignore_expires_at_and_omit_reaped_snaps_witness :
  s_created_at ex_old < ex_now - TTL /\
  api_snaps_get no_faults (Some (s_id ex_old))
    (committed (snd (cleanupExpiredSnaps no_faults ex_now ex_world2))) = NotFound /\
  api_snaps_image no_faults (Some (s_id ex_old))
    (committed (snd (cleanupExpiredSnaps no_faults ex_now ex_world2))) = NotFound.
Proof.
  assert (Hold : s_created_at ex_old < ex_now - TTL) by (vm_compute; reflexivity).
  assert (Hnd : List.NoDup (map s_id (snaps (committed ex_world2)))).
  { simpl. repeat constructor; simpl; intuition discriminate. }
  destruct (proj2 reads_ignore_expires_at_and_omit_reaped_snaps
              no_faults ex_now ex_world2 eq_refl eq_refl eq_refl Hnd)
    as [_ Hgone].
  destruct (Hgone ex_old (or_introl eq_refl) Hold) as (_ & Hget & Himg).
  split; [exact Hold|].
  split; [exact (Hget no_faults eq_refl)|exact (Himg no_faults eq_refl)].
Defined.

(** C1 as stated fails: [ex_old] expired an hour ago and the next pass of
    the reaper has not run yet; every response of the feed lists it and
    counts it, and the single-snap and the image route hand it out. *)
Lemma expired_snap_is_still_served :
  s_expires_at ex_old = Some (ex_now - msPerHour) /\
  ex_now - msPerHour < ex_now /\
  api_feed no_faults None None ex_db2 (api_feed_exec no_faults None None ex_db2) /\
  (forall resp,
     api_feed no_faults None None ex_db2 resp ->
     exists items pg,
       resp = FeedOk items pg /\ In (s_id ex_old) (map fi_id items) /\
       pg_totalItems pg = 2 /\ pg_totalPages pg = 1) /\
  (exists v, api_snaps_get no_faults (Some (s_id ex_old)) ex_db2 = SnapOk v) /\
  api_snaps_image no_faults (Some (s_id ex_old)) ex_db2 =
    ImageOk (lit "image/png") [137; 80; 78; 71]%N.
Proof.
  split; [reflexivity|]. split; [vm_compute; reflexivity|].
  split; [apply api_feed_exec_admissible|]. split; [|split].
  - intros resp Hresp. unfold api_feed in Hresp. simpl in Hresp.
    destruct Hresp as (rows & (l & Hp & _ & ->) & ->).
    do 2 eexists. split; [reflexivity|]. split; [|split; reflexivity].
    rewrite map_map. simpl. apply in_map_iff. exists ex_old. split; [done|].
    pose proof (Permutation_length Hp) as Hlen. simpl in Hlen.
    change (Z.to_nat (feed_limit None)) with 10%nat.
    change (Z.to_nat (feed_offset (feed_page_number None) (feed_limit None)))
      with 0%nat.
    rewrite drop_0, take_ge by lia.
    eapply Permutation_in; [symmetry; exact Hp|]. simpl. tauto.
  - eexists. vm_compute. reflexivity.
  - vm_compute. reflexivity.
Qed.

(** ** The order of the feed *)

Lemma tie_orderings (a b c : SnapRow) (l : list SnapRow) :
  l ≡ₚ [a; b; c] -> StronglySorted newer_first l ->
  s_created_at a = s_created_at b -> s_created_at c < s_created_at a ->
  l = [a; b; c] \/ l = [b; a; c].
Proof.
  intros Hp Hs Hab Hc.
  pose proof (Permutation_length Hp) as Hlen.
  destruct l as [|x [|y [|z [|? ?]]]]; try discriminate.
  apply StronglySorted_inv in Hs as [Hs Hx].
  apply StronglySorted_inv in Hs as [_ Hy].
  apply Forall_cons in Hx as [Hxy Hx]. apply Forall_cons in Hx as [Hxz _].
  apply Forall_cons in Hy as [Hyz _].
  unfold newer_first in *.
  assert (Hz : In z [a; b; c]) by (eapply Permutation_in; [exact Hp|simpl; tauto]).
  assert (Hcin : In c [x; y; z])
    by (eapply Permutation_in; [symmetry; exact Hp|simpl; tauto]).
  assert (z = c) as ->.
  { simpl in Hz, Hcin.
    destruct Hz as [<-|[<-|[<-|[]]]]; [| |done];
      destruct Hcin as [<-|[<-|[<-|[]]]]; try done; lia. }
  assert (Hp2 : [x; y] ≡ₚ [a; b]).
  { apply (Permutation_app_inv_r [c]). exact Hp. }
  apply Permutation_length_2 in Hp2 as [[-> ->]|[-> ->]]; auto.
Qed.

(** C3, as the code has it.  The feed is ordered by [created_at] descending
    and by nothing else.  Every page is in non-increasing order of
    [created_at]; two responses to the same request over the same tables
    carry the same sequence of timestamps and the same pagination; and over
    three snaps created at [t], [t] and [t - 1], page 1 with limit 2 always
    holds the two snaps created at [t], in one order or the other. *)
Theorem feed_is_ordered_by_created_at_alone :
  (forall f q_page q_limit d items pg,
     api_feed f q_page q_limit d (FeedOk items pg) ->
     StronglySorted (fun x y => fi_created_at y <= fi_created_at x) items) /\
  (forall f q_page q_limit d items1 pg1 items2 pg2,
     api_feed f q_page q_limit d (FeedOk items1 pg1) ->
     api_feed f q_page q_limit d (FeedOk items2 pg2) ->
     map fi_created_at items1 = map fi_created_at items2 /\ pg1 = pg2) /\
  (forall f d a b c t items pg,
     snaps d ≡ₚ [a; b; c] ->
     s_created_at a = t -> s_created_at b = t -> s_created_at c = t - 1 ->
     api_feed f (Some 1) (Some 2) d (FeedOk items pg) ->
     items = [feed_item d a; feed_item d b] \/
     items = [feed_item d b; feed_item d a]).
Proof.
  split; [|split].
  - intros f q_page q_limit d items pg Hresp.
    apply api_feed_ok_inv in Hresp as (rows & (l & _ & Hs & ->) & -> & _).
    eapply StronglySorted_map_rel; [|by apply StronglySorted_take_drop, Hs].
    intros x y Hxy. exact Hxy.
  - intros f q_page q_limit d items1 pg1 items2 pg2 H1 H2.
    apply api_feed_ok_inv in H1 as (rows1 & Hr1 & -> & ->).
    apply api_feed_ok_inv in H2 as (rows2 & Hr2 & -> & ->).
    split; [|done]. rewrite !map_map. simpl.
    by eapply snap_data_timestamps.
  - intros f d a b c t items pg Hp Ha Hb Hc Hresp.
    apply api_feed_ok_inv in Hresp as (rows & (l & Hl & Hs & ->) & -> & _).
    change (Z.to_nat (feed_limit (Some 2))) with 2%nat.
    change (Z.to_nat (feed_offset (feed_page_number (Some 1)) (feed_limit (Some 2))))
      with 0%nat.
    rewrite drop_0.
    destruct (tie_orderings a b c l) as [-> | ->]; try done; try lia.
    + by rewrite Hl.
    + by left.
    + by right.
Qed.

Lemma feed_is_ordered_by_created_at_alone_witness :
  api_feed_exec no_faults (Some 1) (Some 2) ex_db3 =
    FeedOk [feed_item ex_db3 ex_a; feed_item ex_db3 ex_b]
           (feed_pagination (Some 1) (Some 2) ex_db3) \/
  api_feed_exec no_faults (Some 1) (Some 2) ex_db3 =
    FeedOk [feed_item ex_db3 ex_b; feed_item ex_db3 ex_a]
           (feed_pagination (Some 1) (Some 2) ex_db3).
Proof.
  pose proof (api_feed_exec_admissible no_faults (Some 1) (Some 2) ex_db3) as Hadm.
  change (api_feed_exec no_faults (Some 1) (Some 2) ex_db3) with
    (FeedOk (map (feed_item ex_db3) (snap_data_exec ex_db3 2 0))
            (feed_pagination (Some 1) (Some 2) ex_db3)) in *.
  destruct (proj2 (proj2 feed_is_ordered_by_created_at_alone)
              no_faults ex_db3 ex_a ex_b ex_c 5000 _ _
              (Permutation_refl _) eq_refl eq_refl eq_refl Hadm) as [-> | ->];
    [by left|by right].
Defined.

(** C3 as stated fails: the query has no tie-break.  Over the three snaps
    above, page 1 with limit 2 may come back as snap 31 then snap 32, and may
    come back as snap 32 then snap 31. *)
Lemma feed_tie_order_is_not_fixed :
  s_created_at ex_a = s_created_at ex_b /\
  s_created_at ex_c = s_created_at ex_a - 1 /\
  api_feed no_faults (Some 1) (Some 2) ex_db3
    (FeedOk [feed_item ex_db3 ex_a; feed_item ex_db3 ex_b]
            (feed_pagination (Some 1) (Some 2) ex_db3)) /\
  api_feed no_faults (Some 1) (Some 2) ex_db3
    (FeedOk [feed_item ex_db3 ex_b; feed_item ex_db3 ex_a]
            (feed_pagination (Some 1) (Some 2) ex_db3)) /\
  map fi_id [feed_item ex_db3 ex_a; feed_item ex_db3 ex_b] = [31%N; 32%N] /\
  map fi_id [feed_item ex_db3 ex_b; feed_item ex_db3 ex_a] = [32%N; 31%N].
Proof.
  split; [reflexivity|]. split; [reflexivity|].
  assert (Hsorted : forall x y, In x [ex_a; ex_b] -> In y [ex_a; ex_b] ->
            x <> y -> StronglySorted newer_first [x; y; ex_c]).
  { intros x y Hx Hy _. simpl in Hx, Hy.
    destruct Hx as [<-|[<-|[]]], Hy as [<-|[<-|[]]];
      repeat constructor; unfold newer_first; simpl; lia. }
  split; [|split; [|split; reflexivity]].
  - exists [ex_a; ex_b]. split; [|reflexivity].
    exists [ex_a; ex_b; ex_c]. split; [reflexivity|]. split; [|reflexivity].
    apply Hsorted; simpl; try tauto. discriminate.
  - exists [ex_b; ex_a]. split; [|reflexivity].
    exists [ex_b; ex_a; ex_c]. split; [apply perm_swap|]. split; [|reflexivity].
    apply Hsorted; simpl; try tauto. discriminate.
Qed.

(** ** The view counter *)

Lemma api_signup_snaps faults username password email hashed id d :
  snaps (snd (api_signup faults username password email hashed id d)) = snaps d.
Proof. unfold api_signup. by repeat case_match. Qed.

(** A signup commits what [api_signup] writes when the client it runs on is
    outside a transaction, and nothing when it is inside one. *)
Lemma post_api_signup_committed faults username password email hashed id w :
  (tx w = None /\
   post_api_signup faults username password email hashed id w =
     (fst (api_signup faults username password email hashed id (committed w)),
      set_committed w
        (snd (api_signup faults username password email hashed id (committed w)))))
  \/
  (is_Some (tx w) /\
   committed (snd (post_api_signup faults username password email hashed id w))
     = committed w).
Proof.
  unfold post_api_signup, pool_query. destruct (tx w) as [d0|] eqn:Htx.
  - right. split; [eauto|]. by destruct (api_signup _ _ _ _ _ _ d0).
  - left. split; [done|]. by destruct (api_signup _ _ _ _ _ _ (committed w)).
Qed.

(** An upload leaves the committed snaps alone or appends one row, whose
    [view_count] is the column default. *)
Lemma api_snaps_post_snaps jwt_verify faults env req w :
  snaps (committed (snd (api_snaps_post jwt_verify faults env req w)))
    = snaps (committed w) \/
  exists row,
    snaps (committed (snd (api_snaps_post jwt_verify faults env req w)))
      = snaps (committed w) ++ [row] /\
    s_view_count row = 0.
Proof.
  unfold api_snaps_post.
  destruct (authenticateToken jwt_verify req); [by left|].
  destruct (req_file req) as [file|]; [|by left].
  destruct (upload_outcome jwt_verify faults env req file w)
    as [(token & userId & u & rest & data & _ & _ & _ & _ & _ & _ & _ & _ & _ &
         dto & _ & _ & Hdb & _)|[_ Hdb]];
    destruct (upload_handler jwt_verify faults env req file w) as [o w1];
    simpl in *; rewrite Hdb; [|by left].
  right. eexists. rewrite (proj2 (tags_after_frame _ _ _ _ _)). simpl.
  split; reflexivity.
Qed.

Lemma multer_single_committed req payload w :
  committed (multer_single req payload w) = committed w.
Proof. unfold multer_single. by destruct (req_file req). Qed.

(** One step keeps every row of [snaps] it does not delete as it is, and a
    row it adds has [view_count = 0]. *)
Lemma step_view_count jwt_verify w fo s :
  In s (snaps (committed (step jwt_verify w fo))) ->
  In s (snaps (committed w)) \/ s_view_count s = 0.
Proof.
  destruct fo as [faults op]. destruct op; simpl; try by left.
  - destruct (post_api_signup_committed faults username password email hashed id w)
      as [[_ ->]|[_ ->]]; [|by left].
    simpl. rewrite api_signup_snaps. by left.
  - destruct (authenticateToken jwt_verify req); [by left|].
    destruct (api_snaps_post_snaps jwt_verify faults env req
                (multer_single req payload w)) as [->|(row & -> & Hrow)];
      rewrite multer_single_committed; [by left|].
    rewrite in_app_iff. intros [?|[<-|[]]]; [by left|by right].
  - destruct (cleanup_committed faults now w) as [-> | ->]; [|by left].
    simpl. rewrite filter_In. intros [? _]. by left.
Qed.

(** C10.  No operation of the server modifies [view_count].  Along any
    sequence of requests and reaper passes, under any faults, a row of
    [snaps] found at the end either was there at the start, unchanged, or
    was inserted by an upload with [view_count = 0]; the reads, the login
    and the signup leave the snaps alone, and the reaper only deletes.  So,
    starting from the empty tables, every snap has [view_count = 0] for as
    long as it exists. *)
Theorem view_count_is_never_modified :
  (forall jwt_verify trace w s,
     In s (snaps (committed (run jwt_verify trace w))) ->
     In s (snaps (committed w)) \/ s_view_count s = 0) /\
  (forall jwt_verify trace s,
     In s (snaps (committed (run jwt_verify trace empty_world))) ->
     s_view_count s = 0).
Proof.
  assert (Hrun : forall jwt_verify trace w s,
            In s (snaps (committed (run jwt_verify trace w))) ->
            In s (snaps (committed w)) \/ s_view_count s = 0).
  { intros jwt_verify trace. induction trace as [|fo trace IH]; intros w s Hs.
    - by left.
    - simpl in Hs. apply IH in Hs as [Hs|?]; [|by right].
      by apply step_view_count in Hs. }
  split; [exact Hrun|].
  intros jwt_verify trace s Hs. by apply Hrun in Hs as [[]|?].
Qed.

Lemma view_count_is_never_modified_witness :
  exists s,
    snaps (committed (run ex_jwt ex_trace empty_world)) = [s] /\
    s_id s = 10%N /\ s_view_count s = 0.
Proof.
  assert (Hids : map s_id (snaps (committed (run ex_jwt ex_trace empty_world)))
                 = [10%N]) by (vm_compute; reflexivity).
  destruct (snaps (committed (run ex_jwt ex_trace empty_world)))
    as [|s [|? ?]] eqn:Hs; try discriminate.
  exists s. split; [reflexivity|]. split; [by injection Hids|].
  apply (proj2 view_count_is_never_modified ex_jwt ex_trace s).
  rewrite Hs. by left.
Defined.

(** * Further properties *)

(** ** Pagination *)

Lemma snap_data_length d limit offset rows :
  snap_data d limit offset rows ->
  length rows =
    Nat.min (Z.to_nat limit) (length (snaps d) - Z.to_nat offset)%nat.
Proof.
  intros (l & Hp & _ & ->).
  rewrite length_take, length_drop. by rewrite (Permutation_length Hp).
Qed.

(** The size of a page. *)
Lemma api_feed_length :
  forall f q_page q_limit d items pg,
    api_feed f q_page q_limit d (FeedOk items pg) ->
    Z.of_nat (length items) =
      Z.min (feed_limit q_limit)
            (Z.max 0 (count_snaps d -
                      feed_offset (feed_page_number q_page) (feed_limit q_limit))) /\
    (length items <= 50)%nat.
Proof.
  intros f q_page q_limit d items pg Hresp.
  apply api_feed_ok_inv in Hresp as (rows & Hrows & -> & _).
  rewrite length_map, (snap_data_length _ _ _ _ Hrows).
  pose proof (feed_limit_bounds q_limit) as Hl.
  assert (0 <= feed_offset (feed_page_number q_page) (feed_limit q_limit))
    by (unfold feed_offset, feed_page_number; nia).
  unfold count_snaps. split; lia.
Qed.

(** X1.  A page of the feed holds as many items as the table has left after
    the offset, and never more than the limit, which is at most 50. *)
Theorem feed_page_length :
  forall f q_page q_limit d items pg,
    api_feed f q_page q_limit d (FeedOk items pg) ->
    Z.of_nat (length items) =
      Z.min (feed_limit q_limit)
            (Z.max 0 (count_snaps d -
                      feed_offset (feed_page_number q_page) (feed_limit q_limit))) /\
    (length items <= 50)%nat.
Proof. exact api_feed_length. Qed.

Lemma feed_page_length_witness :
  exists items pg,
    api_feed_exec no_faults (Some 2) (Some 2) ex_db3 = FeedOk items pg /\
    Z.of_nat (length items) = 1.
Proof.
  do 2 eexists. split; [reflexivity|].
  refine (eq_trans (proj1 (feed_page_length no_faults (Some 2) (Some 2) ex_db3 _ _
            (api_feed_exec_admissible no_faults (Some 2) (Some 2) ex_db3))) _).
  reflexivity.
Defined.

Lemma total_pages_ceiling total limit :
  0 <= total -> 1 <= limit ->
  (total_pages total limit - 1) * limit < total <= total_pages total limit * limit.
Proof.
  intros Ht Hl. unfold total_pages.
  pose proof (Z.div_mod (total + limit - 1) limit ltac:(lia)) as Hdm.
  pose proof (Z.mod_pos_bound (total + limit - 1) limit ltac:(lia)) as Hm.
  nia.
Qed.

(** X2.  [totalPages] is the number of non-empty pages: it is the ceiling of
    [totalItems / limit], and the page a request asks for holds at least one
    item exactly when its number is at most [totalPages]. *)
Theorem feed_page_nonempty_iff_within_total_pages :
  forall f q_page q_limit d items pg,
    api_feed f q_page q_limit d (FeedOk items pg) ->
    (pg_totalPages pg - 1) * pg_limit pg < pg_totalItems pg
      <= pg_totalPages pg * pg_limit pg /\
    (items <> [] <-> pg_page pg <= pg_totalPages pg).
Proof.
  intros f q_page q_limit d items pg Hresp.
  destruct (api_feed_length _ _ _ _ _ _ Hresp) as [Hlen _].
  apply api_feed_ok_inv in Hresp as (rows & Hrows & -> & ->). simpl.
  pose proof (feed_limit_bounds q_limit) as Hl.
  assert (Hc : 0 <= count_snaps d) by (unfold count_snaps; lia).
  pose proof (total_pages_ceiling (count_snaps d) (feed_limit q_limit) Hc
                ltac:(lia)) as Hceil.
  split; [exact Hceil|].
  assert (Hp : 1 <= feed_page_number q_page) by (unfold feed_page_number; lia).
  unfold feed_offset in Hlen.
  set (tp := total_pages (count_snaps d) (feed_limit q_limit)) in *.
  set (page := feed_page_number q_page) in *.
  set (limit := feed_limit q_limit) in *.
  destruct (map (feed_item d) rows) as [|it its] eqn:Hitems; simpl in Hlen.
  - split; [done|]. intros Hle. exfalso.
    assert ((page - 1) * limit <= (tp - 1) * limit)
      by (apply Z.mul_le_mono_nonneg_r; lia).
    lia.
  - split; [|done]. intros _.
    destruct (Z_le_gt_dec page tp) as [?|Hgt]; [done|]. exfalso.
    assert (tp * limit <= (page - 1) * limit)
      by (apply Z.mul_le_mono_nonneg_r; lia).
    lia.
Qed.

(** Three snaps, two per page: page 3 is past the last page. *)
Lemma feed_page_nonempty_iff_within_total_pages_witness :
  map (feed_item ex_db3) (snap_data_exec ex_db3 2 4) = [].
Proof.
  pose proof (api_feed_exec_admissible no_faults (Some 3) (Some 2) ex_db3) as Hadm.
  change (api_feed_exec no_faults (Some 3) (Some 2) ex_db3) with
    (FeedOk (map (feed_item ex_db3) (snap_data_exec ex_db3 2 4))
            (feed_pagination (Some 3) (Some 2) ex_db3)) in Hadm.
  destruct (feed_page_nonempty_iff_within_total_pages _ _ _ _ _ _ Hadm)
    as [_ Hiff].
  destruct (map (feed_item ex_db3) (snap_data_exec ex_db3 2 4)); [reflexivity|].
  exfalso. assert (H : pg_page (feed_pagination (Some 3) (Some 2) ex_db3)
                       <= pg_totalPages (feed_pagination (Some 3) (Some 2) ex_db3))
    by (apply Hiff; discriminate).
  vm_compute in H. by apply H.
Defined.

Lemma windows_concat {A} (n : nat) : forall (k : nat) (l : list A),
  (0 < n)%nat -> (length l <= k * n)%nat ->
  concat (map (fun i => take n (drop (i * n) l)) (seq 0 k)) = l.
Proof.
  induction k as [|k IH]; intros l Hn Hlen; simpl.
  - destruct l; [done|simpl in Hlen; lia].
  - rewrite <- seq_shift, map_map.
    transitivity (take n l ++ drop n l); [|apply take_drop]. f_equal.
    assert (Hrest : concat (map (fun i => take n (drop (i * n) (drop n l)))
                               (seq 0 k)) = drop n l).
    { apply IH; [done|]. rewrite length_drop. lia. }
    etransitivity; [|exact Hrest].
    f_equal. apply map_ext. intros i. rewrite drop_drop. do 2 f_equal; lia.
Qed.

(** X3.  Over one ordering of the table, the pages 1 to [totalPages] of a
    given limit, put end to end, are that ordering: every snap is on exactly
    one page, and in order. *)
Theorem feed_pages_partition_the_ordering :
  forall (q_limit : option Z) (l : list SnapRow),
    let limit := feed_limit q_limit in
    let totalPages := total_pages (Z.of_nat (length l)) limit in
    concat
      (map (fun page : nat =>
              take (Z.to_nat limit)
                   (drop (Z.to_nat (feed_offset
                                      (feed_page_number (Some (Z.of_nat page)))
                                      limit)) l))
           (seq 1 (Z.to_nat totalPages))) = l.
Proof.
  intros q_limit l limit totalPages.
  pose proof (feed_limit_bounds q_limit) as Hl. fold limit in Hl.
  pose proof (total_pages_ceiling (Z.of_nat (length l)) limit ltac:(lia)
                ltac:(lia)) as Hceil. fold totalPages in Hceil.
  rewrite <- seq_shift, map_map.
  assert (Hall : concat (map (fun i => take (Z.to_nat limit)
                                         (drop (i * Z.to_nat limit) l))
                             (seq 0 (Z.to_nat totalPages))) = l).
  { apply windows_concat; [lia|nia]. }
  etransitivity; [|exact Hall].
  f_equal. apply map_ext. intros i. do 2 f_equal.
  rewrite feed_page_number_ge1 by lia.
  unfold feed_offset. rewrite Z2Nat.inj_mul by lia. lia.
Qed.

(** X4.  The query parameters are normalised before use: the page is at
    least 1 and the limit between 1 and 50, so that the offset is never
    negative; a page of at least 1 and a limit between 1 and 50 are taken as
    they are; a missing, unreadable or zero value gives page 1 and limit 10,
    a negative limit gives 1 and a limit above 50 gives 50. *)
Theorem feed_parameters_are_clamped :
  (forall q_page q_limit,
     1 <= feed_page_number q_page /\ 1 <= feed_limit q_limit <= 50 /\
     0 <= feed_offset (feed_page_number q_page) (feed_limit q_limit)) /\
  (forall n, 1 <= n -> feed_page_number (Some n) = n) /\
  (forall n, 1 <= n <= 50 -> feed_limit (Some n) = n) /\
  (forall n, n <= 0 -> feed_page_number (Some n) = 1) /\
  feed_page_number None = 1 /\ feed_limit None = 10 /\ feed_limit (Some 0) = 10 /\
  (forall n, n < 0 -> feed_limit (Some n) = 1) /\
  (forall n, 50 <= n -> feed_limit (Some n) = 50).
Proof.
  unfold feed_page_number, feed_limit, feed_offset, parseInt_or.
  repeat split; try (intros n; destruct n; lia); try reflexivity;
    try (destruct q_page as [[| |]|]; lia);
    try (destruct q_limit as [[| |]|]; lia).
  destruct q_page as [[| |]|], q_limit as [[| |]|]; nia.
Qed.

Lemma feed_parameters_are_clamped_witness :
  feed_limit (Some 200) = 50 /\ feed_limit (Some (-5)) = 1 /\
  feed_page_number (Some (-3)) = 1 /\ feed_page_number (Some 7) = 7.
Proof.
  destruct feed_parameters_are_clamped
    as (_ & Hpage & _ & Hlow & _ & _ & _ & Hneg & Hbig).
  split; [apply Hbig; lia|]. split; [apply Hneg; lia|].
  split; [apply Hlow; lia|apply Hpage; lia].
Defined.

(** ** Accounts *)

Lemma existsb_false_iff {A} (f : A -> bool) (l : list A) :
  existsb f l = false <-> forall x, In x l -> f x = false.
Proof.
  induction l as [|a l IH]; simpl; [done|].
  rewrite orb_false_iff, IH. split.
  - intros [Ha Hl] x [<-|Hx]; eauto.
  - intros H. split; [apply H; by left|]. intros x Hx. apply H. by right.
Qed.

(** What a signup that answers 201 did. *)
Lemma api_signup_created faults username password email hashed id d id' name d' :
  api_signup faults username password email hashed id d = (UserCreated id' name, d') ->
  id' = id /\ username = Some name /\ name <> [] /\
  (forall u, In u (users d) -> u_username u <> name) /\
  (forall u, In u (users d) ->
     u_email u <> default (name ++ lit "@example.com") email) /\
  (forall u, In u (users d) -> u_id u <> id) /\
  d' = set_users d
         (users d ++
          [{| u_id := id; u_username := name;
              u_email := default (name ++ lit "@example.com") email;
              u_password_hash := hashed; u_profile_picture_url := None;
              u_is_active := true |}]).
Proof.
  unfold api_signup.
  destruct username as [[|c name0]|]; simpl; try by intros [=].
  destruct (missing password); simpl; [by intros [=]|].
  destruct (faults SSelectUserByName); [by intros [=]|].
  destruct (existsb _ (users d)) eqn:Hname; [by intros [=]|].
  destruct (faults SInsertUser); simpl; [by intros [=]|].
  destruct (existsb _ (users d)) eqn:Hemail in |- *; simpl; [by intros [=]|].
  destruct (existsb (fun u => (u_id u =? id)%N) (users d)) eqn:Hid; [by intros [=]|].
  intros [= <- <- <-].
  rewrite existsb_false_iff in Hname, Hemail, Hid.
  repeat split; try done.
  - intros u Hu. specialize (Hname u Hu). by apply bool_decide_eq_false in Hname.
  - intros u Hu. specialize (Hemail u Hu). by apply bool_decide_eq_false in Hemail.
  - intros u Hu. specialize (Hid u Hu). by apply N.eqb_neq in Hid.
Qed.



(** What a signup does to the tables. *)
Lemma api_signup_keys :
  forall faults username password email hashed id d,
    let r := api_signup faults username password email hashed id d in
    (List.NoDup (map u_username (users d)) ->
     List.NoDup (map u_username (users (snd r)))) /\
    (List.NoDup (map u_email (users d)) ->
     List.NoDup (map u_email (users (snd r)))) /\
    (List.NoDup (map u_id (users d)) ->
     List.NoDup (map u_id (users (snd r)))) /\
    (exists new, users (snd r) = users d ++ new) /\
    ((forall id' name, fst r <> UserCreated id' name) -> snd r = d) /\
    snaps (snd r) = snaps d /\ snaps_hashtags (snd r) = snaps_hashtags d.
Proof.
  intros faults username password email hashed id d r.
  destruct r as [resp d'] eqn:Hr. subst r. simpl.
  destruct resp;
    try (assert (d' = d) as ->
           by (revert Hr; unfold api_signup; repeat case_match; congruence);
         repeat split; try done; exists []; by rewrite app_nil_r).
  apply api_signup_created in Hr as (-> & -> & _ & Hname & Hemail & Hid & ->).
  simpl.
  assert (Hnd : forall {B} (f : UserRow -> B) (x : UserRow),
            (forall u, In u (users d) -> f u <> f x) ->
            List.NoDup (map f (users d)) -> List.NoDup (map f (users d ++ [x]))).
  { intros B f x Hx Hnd. rewrite map_app. simpl.
    apply NoDup_ListNoDup, NoDup_app. rewrite NoDup_ListNoDup.
    split; [done|]. split; [|apply NoDup_singleton].
    intros y Hy Hy'. apply list_elem_of_singleton in Hy'. subst y.
    apply list_elem_of_In, in_map_iff in Hy as (u & Hfu & Hu).
    by apply (Hx u Hu). }
  repeat split.
  - apply Hnd. intros u Hu. by apply Hname.
  - apply Hnd. intros u Hu. by apply Hemail.
  - apply Hnd. intros u Hu. by apply Hid.
  - eauto.
  - intros Hno. by destruct (Hno id username0).
Qed.

(** X6.  A signup keeps the keys of [users] distinct and writes nothing
    unless it answers 201: usernames, emails and ids that were pairwise
    distinct before are so afterwards, the rows already there stay in place,
    an answer other than 201 leaves the tables as they were, and the snaps
    and their tags are never touched. *)
Theorem signup_keeps_user_keys_distinct :
  forall faults username password email hashed id d,
    let r := api_signup faults username password email hashed id d in
    (List.NoDup (map u_username (users d)) ->
     List.NoDup (map u_username (users (snd r)))) /\
    (List.NoDup (map u_email (users d)) ->
     List.NoDup (map u_email (users (snd r)))) /\
    (List.NoDup (map u_id (users d)) ->
     List.NoDup (map u_id (users (snd r)))) /\
    (exists new, users (snd r) = users d ++ new) /\
    ((forall id' name, fst r <> UserCreated id' name) -> snd r = d) /\
    snaps (snd r) = snaps d /\ snaps_hashtags (snd r) = snaps_hashtags d.
Proof. exact api_signup_keys. Qed.

Lemma signup_keeps_user_keys_distinct_witness :
  List.NoDup (map u_username
                (users (snd (api_signup no_faults (Some (lit "carol"))
                               (Some (lit "pw")) None (lit "$2b$10$xyz") 3%N ex_db)))) /\
  snd (api_signup no_faults (Some (lit "alice")) (Some (lit "pw")) None
         (lit "$2b$10$xyz") 3%N ex_db) = ex_db.
Proof.
  split.
  - refine (proj1 (signup_keeps_user_keys_distinct no_faults (Some (lit "carol"))
                     (Some (lit "pw")) None (lit "$2b$10$xyz") 3%N ex_db) _).
    apply NoDup_ListNoDup, (bool_decide_unpack _). vm_compute. exact I.
  - refine (proj1 (proj2 (proj2 (proj2 (proj2
              (signup_keeps_user_keys_distinct no_faults (Some (lit "alice"))
                 (Some (lit "pw")) None (lit "$2b$10$xyz") 3%N ex_db))))) _).
    intros id' name. vm_compute. discriminate.
Defined.

(** X7.  The login does not tell an unknown username from a wrong password:
    with both fields filled in and the SELECT going through, a username that
    no row carries and a username whose stored hash [bcrypt.compare] rejects
    get the same 401. *)
Theorem login_failures_are_indistinguishable :
  forall faults username password valid d,
    missing username = false -> missing password = false ->
    faults SSelectUserByName = false ->
    ((forall u, In u (users d) -> u_username u <> default [] username) ->
     api_login faults username password valid d = Unauthorized) /\
    ((forall u, In u (users d) -> u_username u = default [] username ->
                valid (u_password_hash u) = false) ->
     api_login faults username password valid d = Unauthorized).
Proof.
  intros faults username password valid d Hu Hp Hf.
  unfold api_login. rewrite Hu, Hp, Hf. simpl. split.
  - intros Hnone. rewrite filter_none; [done|].
    intros u Hin. apply bool_decide_eq_false. by apply Hnone.
  - intros Hbad.
    destruct (List.filter _ (users d)) as [|u l] eqn:Hrows; [done|].
    assert (Hin : In u (List.filter
                  (fun u => bool_decide (u_username u = default [] username))
                  (users d))) by (rewrite Hrows; by left).
    apply filter_In in Hin as [Hin Hname]. apply bool_decide_eq_true in Hname.
    by rewrite (Hbad u Hin Hname).
Qed.

Lemma login_failures_are_indistinguishable_witness :
  api_login no_faults (Some (lit "nobody")) (Some (lit "pw")) (fun _ => true) ex_db
    = Unauthorized /\
  api_login no_faults (Some (lit "alice")) (Some (lit "pw")) (fun _ => false) ex_db
    = Unauthorized.
Proof.
  split.
  - refine (proj1 (login_failures_are_indistinguishable no_faults
                     (Some (lit "nobody")) (Some (lit "pw")) (fun _ => true) ex_db
                     eq_refl eq_refl eq_refl) _).
    intros u [<-|[<-|[]]]; vm_compute; discriminate.
  - refine (proj2 (login_failures_are_indistinguishable no_faults
                     (Some (lit "alice")) (Some (lit "pw")) (fun _ => false) ex_db
                     eq_refl eq_refl eq_refl) _).
    reflexivity.
Defined.

(** ** The credential *)

Lemma split_char_go_word d w : forall cur s,
  Forall (fun c => c <> d) w ->
  split_char_go d cur (w ++ s) = split_char_go d (rev w ++ cur) s.
Proof.
  induction w as [|c w IH]; intros cur s Hw; simpl; [done|].
  inversion Hw as [|? ? Hc Hw']; subst.
  replace (c =? d)%N with false by (symmetry; by apply N.eqb_neq).
  rewrite IH by done. by rewrite <- app_assoc.
Qed.

(** X8.  The token is the second space-separated word of the Authorization
    header, whatever the first word is: the scheme is not checked.  A header
    of one word, and a header whose first space is followed by another space,
    carry no token, as does a missing header. *)
Theorem bearer_token_is_second_word :
  forall scheme token rest,
    Forall (fun c => c <> 32%N) scheme ->
    Forall (fun c => c <> 32%N) token -> token <> [] ->
    bearer_token (Some (scheme ++ 32%N :: token)) = Some token /\
    bearer_token (Some (scheme ++ 32%N :: token ++ 32%N :: rest)) = Some token /\
    bearer_token (Some scheme) = None /\
    bearer_token (Some (scheme ++ 32%N :: 32%N :: rest)) = None /\
    bearer_token None = None.
Proof.
  intros scheme token rest Hs Ht Hne. unfold bearer_token.
  assert (Hword : forall s,
            split_char_go 32%N [] (scheme ++ 32%N :: s)
            = scheme :: split_char_go 32%N [] s).
  { intros s. rewrite split_char_go_word by done. simpl.
    by rewrite app_nil_r, rev_involutive. }
  repeat split.
  - rewrite Hword. rewrite <- (app_nil_r token) at 1.
    rewrite split_char_go_word by done. simpl.
    rewrite app_nil_r, rev_involutive. by destruct token.
  - rewrite Hword, split_char_go_word by done. simpl.
    rewrite app_nil_r, rev_involutive. by destruct token.
  - rewrite <- (app_nil_r scheme). by rewrite split_char_go_word.
  - by rewrite Hword.
Qed.

Lemma bearer_token_is_second_word_witness :
  bearer_token (Some (lit "Basic t1")) = Some (lit "t1") /\
  bearer_token (Some (lit "Bearer t1 trailing")) = Some (lit "t1") /\
  bearer_token (Some (lit "Bearer")) = None.
Proof.
  assert (Hs1 : Forall (fun c => c <> 32%N) (lit "Basic"))
    by (repeat constructor; discriminate).
  assert (Hs2 : Forall (fun c => c <> 32%N) (lit "Bearer"))
    by (repeat constructor; discriminate).
  assert (Ht : Forall (fun c => c <> 32%N) (lit "t1"))
    by (repeat constructor; discriminate).
  assert (Hne : lit "t1" <> []) by discriminate.
  split; [|split].
  - exact (proj1 (bearer_token_is_second_word (lit "Basic") (lit "t1") [] Hs1 Ht Hne)).
  - exact (proj1 (proj2 (bearer_token_is_second_word (lit "Bearer") (lit "t1")
                           (lit "trailing") Hs2 Ht Hne))).
  - exact (proj1 (proj2 (proj2 (bearer_token_is_second_word (lit "Bearer") (lit "t1")
                                  [] Hs2 Ht Hne)))).
Defined.

(** ** More on the upload *)

Section UploadMore.
Variable jwt_verify : js_string -> option Id.
Variable faults : Faults.
Variables (env : UploadEnv) (req : Request) (file : File).

(** The broadcast follows the COMMIT and nothing else. *)
Lemma upload_emitted (w : World) :
  emitted (snd (upload_handler jwt_verify faults env req file w)) =
    emitted w ++
    match response_of (fst (upload_handler jwt_verify faults env req file w)) with
    | Some (Created dto) => [dto]
    | _ => []
    end.
Proof.
  run_upload; simpl; by rewrite ?app_nil_r.
Qed.


Lemma upload_run (w : World) token userId u rest data :
  bearer_token (req_authorization req) = Some token ->
  jwt_verify token = Some userId ->
  List.filter (fun u => (u_id u =? userId)%N) (users (committed w)) = u :: rest ->
  files w !! f_path file = Some data ->
  existsb (fun s => (s_id s =? new_id env)%N) (snaps (committed w)) = false ->
  faults SBegin = false -> faults SSelectUser = false ->
  faults SInsertSnap = false -> faults SCommit = false ->
  let hashtags := default [] (req_body req !! "hashtags") in
  let row := new_snap_row env req file userId data hashtags
               (setHours_plus12 (zone env) (app_now env)) in
  let dto := {| dto_id := new_id env; dto_username := u_username u;
                dto_imageUrl := new_id env;
                dto_caption := req_body req !! "caption";
                dto_location := default [] (req_body req !! "location");
                dto_createdAt := db_now env |} in
  upload_handler jwt_verify faults env req file w =
    (Ok (Created dto),
     {| committed :=
          tags_after faults (new_id env) (upload_tags hashtags) 0
            (set_snaps (committed w) (snaps (committed w) ++ [row]));
        tx := None;
        files := delete (f_path file) (files w);
        emitted := emitted w ++ [dto] |}).
Proof.
  intros Htok Hjwt Hrows Hfile Hfresh HB HS HI HC hashtags row dto.
  unfold upload_handler, try_catch, upload_try, bind, client_begin.
  rewrite HB, Htok, Hjwt.
  unfold client_query. rewrite HS. simpl. rewrite Hrows.
  unfold readFileSync. simpl. rewrite Hfile, HI. simpl.
  unfold insert_snap. simpl. rewrite Hfresh.
  erewrite index_hashtags_run by reflexivity.
  unfold unlinkSync, client_commit. simpl. rewrite Hfile, HC. simpl.
  reflexivity.
Qed.

End UploadMore.

(** A request answered 201 met every condition of the handler, and the world
    it leaves is the one [upload_run] describes. *)
Lemma api_snaps_post_created_inv jwt_verify faults env req w dto w' :
  api_snaps_post jwt_verify faults env req w = (Some (Created dto), w') ->
  exists file token userId u rest data,
    req_file req = Some file /\
    bearer_token (req_authorization req) = Some token /\
    jwt_verify token = Some userId /\
    List.filter (fun u => (u_id u =? userId)%N) (users (committed w)) = u :: rest /\
    files w !! f_path file = Some data /\
    existsb (fun s => (s_id s =? new_id env)%N) (snaps (committed w)) = false /\
    dto = {| dto_id := new_id env; dto_username := u_username u;
             dto_imageUrl := new_id env;
             dto_caption := req_body req !! "caption";
             dto_location := default [] (req_body req !! "location");
             dto_createdAt := db_now env |} /\
    w' = {| committed :=
              tags_after faults (new_id env)
                (upload_tags (default [] (req_body req !! "hashtags"))) 0
                (set_snaps (committed w)
                   (snaps (committed w) ++
                    [new_snap_row env req file userId data
                       (default [] (req_body req !! "hashtags"))
                       (setHours_plus12 (zone env) (app_now env))]));
            tx := None;
            files := delete (f_path file) (files w);
            emitted := emitted w ++ [dto] |}.
Proof.
  unfold api_snaps_post.
  destruct (authenticateToken jwt_verify req) as [r|] eqn:Ha.
  { intros [= -> _]. by eapply authenticateToken_not_created in Ha. }
  destruct (req_file req) as [file|]; [|done].
  destruct (upload_outcome jwt_verify faults env req file w)
    as [(token & userId & u & rest & data & Htok & Hjwt & Hrows & Hfile & Hfresh &
         HB & HS & HI & HC & _)|[Hno _]].
  - rewrite (upload_run jwt_verify faults env req file w token userId u rest data)
      by done.
    simpl. intros [= <- <-].
    exists file, token, userId, u, rest, data. by repeat split.
  - destruct (upload_handler _ _ _ _ _ w) as [o w1]; simpl in *.
    intros [= Ho <-]. by apply Hno in Ho.
Qed.



Lemma filter_id_fresh (l : list SnapRow) (id : Id) :
  existsb (fun s => (s_id s =? id)%N) l = false ->
  List.filter (fun s => (s_id s =? id)%N) l = [].
Proof.
  intros H. apply filter_none. by apply existsb_false_iff.
Qed.

(** X10.  What was uploaded is what the read routes serve.  After an upload
    answered 201 during which no per-tag INSERT was refused, the image route
    answers the id of the response with the bytes of the staged file and its
    mime type, the single-snap route answers it with the caption of the form
    and the username of the response, and the feed counts one snap more. *)
Theorem upload_then_read :
  forall jwt_verify faults env req w dto w' file data,
    (forall i, faults (SInsertTag i) = false) ->
    api_snaps_post jwt_verify faults env req w = (Some (Created dto), w') ->
    req_file req = Some file -> files w !! f_path file = Some data ->
    (forall f, f SSelectImage = false ->
       api_snaps_image f (Some (dto_id dto)) (committed w')
         = ImageOk (f_mimetype file) data) /\
    (forall f, f SSelectSnap = false ->
       exists v,
         api_snaps_get f (Some (dto_id dto)) (committed w') = SnapOk v /\
         sv_id v = dto_id dto /\ sv_username v = dto_username dto /\
         sv_caption v = req_body req !! "caption") /\
    count_snaps (committed w') = count_snaps (committed w) + 1.
Proof.
  intros jwt_verify faults env req w dto w' file data _ Hpost Hreq Hfile.
  apply api_snaps_post_created_inv in Hpost
    as (file' & token & userId & u & rest & data' & Hreq' & _ & _ & Hrows &
        Hfile' & Hfresh & -> & ->).
  rewrite Hreq in Hreq'. injection Hreq' as <-.
  rewrite Hfile in Hfile'. injection Hfile' as <-.
  simpl.
  set (row := new_snap_row env req file userId data
                (default [] (req_body req !! "hashtags"))
                (setHours_plus12 (zone env) (app_now env))).
  set (d' := tags_after faults (new_id env)
               (upload_tags (default [] (req_body req !! "hashtags"))) 0
               (set_snaps (committed w) (snaps (committed w) ++ [row]))).
  destruct (tags_after_frame faults (new_id env)
              (upload_tags (default [] (req_body req !! "hashtags"))) 0
              (set_snaps (committed w) (snaps (committed w) ++ [row])))
    as [Husers Hsnaps].
  fold d' in Husers, Hsnaps. simpl in Husers, Hsnaps.
  assert (Hsel : List.filter (fun s => (s_id s =? new_id env)%N) (snaps d') = [row]).
  { rewrite Hsnaps, List.filter_app, filter_id_fresh by done. simpl.
    by rewrite N.eqb_refl. }
  split; [|split].
  - intros f Hf. unfold api_snaps_image. by rewrite Hf, Hsel.
  - intros f Hf. unfold api_snaps_get, select_snap. rewrite Hf, Hsel. simpl.
    unfold join_users. rewrite Husers. simpl. rewrite Hrows. simpl.
    eexists. split; [reflexivity|]. by repeat split.
  - unfold count_snaps. rewrite Hsnaps, length_app. simpl. lia.
Qed.

Lemma upload_then_read_witness :
  api_snaps_image no_faults (Some 10%N)
    (committed (snd (api_snaps_post ex_jwt no_faults ex_env (ex_req "t1") ex_world)))
    = ImageOk (lit "image/png") [137; 80; 78; 71]%N.
Proof.
  refine (proj1 (upload_then_read ex_jwt no_faults ex_env (ex_req "t1") ex_world
                   {| dto_id := 10%N; dto_username := lit "alice";
                      dto_imageUrl := 10%N; dto_caption := Some (lit "hello");
                      dto_location := []; dto_createdAt := 1000 |}
                   (snd (api_snaps_post ex_jwt no_faults ex_env (ex_req "t1")
                           ex_world))
                   ex_file [137; 80; 78; 71]%N (fun _ => eq_refl) _ eq_refl eq_refl)
                no_faults eq_refl).
  apply injective_projections; [vm_compute; reflexivity|reflexivity].
Defined.

(** X11.  The live-update channel announces a snap only with its 201: a
    request answered 201 adds its snap, and only it, to the broadcasts, and
    any other outcome of the route, failures and rejections included,
    broadcasts nothing.  When no per-tag INSERT is refused, the snap that is
    announced is in the committed table. *)
Theorem broadcast_follows_commit :
  forall jwt_verify faults env req w,
    emitted (snd (api_snaps_post jwt_verify faults env req w)) =
      emitted w ++
      match fst (api_snaps_post jwt_verify faults env req w) with
      | Some (Created dto) => [dto]
      | _ => []
      end /\
    (forall dto,
       (forall i, faults (SInsertTag i) = false) ->
       fst (api_snaps_post jwt_verify faults env req w) = Some (Created dto) ->
       exists row,
         In row (snaps (committed (snd (api_snaps_post jwt_verify faults env req w)))) /\
         s_id row = dto_id dto).
Proof.
  intros jwt_verify faults env req w. split.
  - unfold api_snaps_post.
    destruct (authenticateToken jwt_verify req) as [r|] eqn:Ha.
    { simpl. unfold authenticateToken in Ha.
      repeat case_match; simplify_eq; by rewrite app_nil_r. }
    destruct (req_file req) as [file|]; [|simpl; by rewrite app_nil_r].
    pose proof (upload_emitted jwt_verify faults env req file w) as He.
    by destruct (upload_handler jwt_verify faults env req file w) as [o w1].
  - intros dto _ Hfst.
    destruct (api_snaps_post jwt_verify faults env req w) as [resp w'] eqn:Hpost.
    simpl in Hfst. subst resp.
    apply api_snaps_post_created_inv in Hpost
      as (file & token & userId & u & rest & data & _ & _ & _ & _ & _ & _ & -> & ->).
    simpl. eexists. rewrite (proj2 (tags_after_frame _ _ _ _ _)). simpl.
    split; [apply in_app_iff; right; by left|]. done.
Qed.

Lemma broadcast_follows_commit_witness :
  emitted (snd (api_snaps_post ex_jwt (refusing [SCommit]) ex_env (ex_req "t1")
                  ex_world)) = [] /\
  exists row,
    In row (snaps (committed (snd (api_snaps_post ex_jwt no_faults ex_env
                                     (ex_req "t1") ex_world)))) /\
    s_id row = 10%N.
Proof.
  split.
  - refine (eq_trans (proj1 (broadcast_follows_commit ex_jwt (refusing [SCommit])
                               ex_env (ex_req "t1") ex_world)) _).
    vm_compute. reflexivity.
  - destruct (proj2 (broadcast_follows_commit ex_jwt no_faults ex_env (ex_req "t1")
                       ex_world)
                {| dto_id := 10%N; dto_username := lit "alice"; dto_imageUrl := 10%N;
                   dto_caption := Some (lit "hello"); dto_location := [];
                   dto_createdAt := 1000 |}) as (row & Hin & Hid).
    + reflexivity.
    + vm_compute. reflexivity.
    + exists row. split; [exact Hin|exact Hid].
Defined.








(** X22.  A failed upload commits nothing.  When the [try] block of an
    upload throws before its COMMIT has gone through (at BEGIN, at the
    verification of the token, at the owner lookup, at the read of the
    staged file, at the INSERT of the snap or at COMMIT itself; an error of
    a per-tag INSERT is caught inside the loop and never gets here, and the
    broadcast and the 201 that follow COMMIT are taken not to throw), the
    committed tables are what they were, so that the feed and its count are
    unchanged, and the staged file is gone.  The caller receives the 500
    when the ROLLBACK of the [catch] block goes through, which also closes
    the transaction, and no response when ROLLBACK is refused as well. *)
Theorem failed_upload_commits_nothing :
  forall jwt_verify faults env req file w,
    authenticateToken jwt_verify req = None ->
    req_file req = Some file ->
    fst (upload_try jwt_verify faults env req file w) = Thrown ->
    fst (api_snaps_post jwt_verify faults env req w)
      = (if faults SRollback then None else Some ServerError) /\
    (faults SRollback = false ->
     tx (snd (api_snaps_post jwt_verify faults env req w)) = None) /\
    committed (snd (api_snaps_post jwt_verify faults env req w)) = committed w /\
    files (snd (api_snaps_post jwt_verify faults env req w)) !! f_path file = None /\
    count_snaps (committed (snd (api_snaps_post jwt_verify faults env req w)))
      = count_snaps (committed w) /\
    (forall f q_page q_limit resp,
       api_feed f q_page q_limit
         (committed (snd (api_snaps_post jwt_verify faults env req w))) resp <->
       api_feed f q_page q_limit (committed w) resp).
Proof.
  intros jwt_verify faults env req file w Hauth Hfile Hthrow.
  unfold api_snaps_post. rewrite Hauth, Hfile.
  destruct (upload_thrown jwt_verify faults env req file w Hthrow)
    as (Hdb & Hfiles & Hfst & Htx).
  destruct (upload_handler jwt_verify faults env req file w) as [o w1].
  simpl in *. subst o. rewrite Hdb.
  split; [by destruct (faults SRollback)|]. done.
Qed.

(** COMMIT is refused after the snap and its two tags have been inserted. *)
Lemma failed_upload_commits_nothing_witness :
  (exists d,
     tx (snd (upload_try ex_jwt (refusing [SCommit]) ex_env (ex_req "t1") ex_file
                ex_world)) = Some d /\
     map s_id (snaps d) = [10%N] /\ length (snaps_hashtags d) = 2%nat) /\
  fst (api_snaps_post ex_jwt (refusing [SCommit]) ex_env (ex_req "t1") ex_world)
    = Some ServerError /\
  committed (snd (api_snaps_post ex_jwt (refusing [SCommit]) ex_env
                    (ex_req "t1") ex_world)) = ex_db /\
  files (snd (api_snaps_post ex_jwt (refusing [SCommit]) ex_env (ex_req "t1")
                ex_world)) !! "public/uploads/0b5e.png" = None.
Proof.
  split.
  { eexists. split; [vm_compute; reflexivity|]. split; reflexivity. }
  destruct (failed_upload_commits_nothing ex_jwt (refusing [SCommit]) ex_env
              (ex_req "t1") ex_file ex_world)
    as (H1 & _ & H3 & H4 & _).
  - vm_compute. reflexivity.
  - reflexivity.
  - vm_compute. reflexivity.
  - split; [exact H1|]. split; [exact H3|exact H4].
Defined.

(** ** More on the reaper *)

(** X14.  A snap lives for 12 hours of the database's clock, whatever its
    [expires_at] says: after an upload answered 201 during which no per-tag
    INSERT was refused, the snap is stored with the [NOW()] of its
    transaction as [created_at], and a pass of the reaper that goes through
    at time [now] keeps it exactly when [now - 12h <= created_at]. *)
Theorem uploaded_snap_lives_twelve_hours :
  forall jwt_verify faults env req w dto w',
    (forall i, faults (SInsertTag i) = false) ->
    api_snaps_post jwt_verify faults env req w = (Some (Created dto), w') ->
    (exists row,
       In row (snaps (committed w')) /\ s_id row = dto_id dto /\
       s_created_at row = db_now env) /\
    forall f now,
      f SBegin = false -> f SDeleteExpired = false -> f SCommit = false ->
      ((exists s, In s (snaps (committed (snd (cleanupExpiredSnaps f now w'))))
                  /\ s_id s = dto_id dto)
       <-> now - TTL <= db_now env).
Proof.
  intros jwt_verify faults env req w dto w' _ Hpost.
  apply api_snaps_post_created_inv in Hpost
    as (file & token & userId & u & rest & data & _ & _ & _ & _ & _ & Hfresh &
        -> & ->).
  split.
  { simpl. eexists. rewrite (proj2 (tags_after_frame _ _ _ _ _)). simpl.
    split; [apply in_app_iff; right; by left|]. by split. }
  intros f now HB HD HC.
  rewrite cleanup_run by done. simpl.
  rewrite (proj2 (tags_after_frame _ _ _ _ _)). simpl.
  rewrite existsb_false_iff in Hfresh. split.
  - intros (s & Hs & Hid). apply filter_In in Hs as [Hs Hlive].
    apply in_app_iff in Hs as [Hs|[<-|[]]].
    + apply Hfresh in Hs. apply N.eqb_neq in Hs. done.
    + unfold stale in Hlive. simpl in Hlive.
      by apply negb_true_iff, Z.ltb_ge in Hlive.
  - intros Hlive.
    exists (new_snap_row env req file userId data
              (default [] (req_body req !! "hashtags"))
              (setHours_plus12 (zone env) (app_now env))).
    split; [|reflexivity].
    apply filter_In. split; [apply in_app_iff; right; by left|].
    unfold stale. simpl. by apply negb_true_iff, Z.ltb_ge.
Qed.

(** The snap of the example is created at 1000 and its [expires_at] is
    43201001: the pass at 43201000 keeps it, the pass at 43201001 takes it. *)
Lemma uploaded_snap_lives_twelve_hours_witness :
  (exists s,
     In s (snaps (committed (snd (cleanupExpiredSnaps no_faults 43201000
             (snd (api_snaps_post ex_jwt no_faults ex_env (ex_req "t1") ex_world))))))
     /\ s_id s = 10%N) /\
  ~ (exists s,
       In s (snaps (committed (snd (cleanupExpiredSnaps no_faults 43201001
               (snd (api_snaps_post ex_jwt no_faults ex_env (ex_req "t1") ex_world))))))
       /\ s_id s = 10%N).
Proof.
  assert (Hpost : api_snaps_post ex_jwt no_faults ex_env (ex_req "t1") ex_world =
                  (Some (Created {| dto_id := 10%N; dto_username := lit "alice";
                                    dto_imageUrl := 10%N;
                                    dto_caption := Some (lit "hello");
                                    dto_location := []; dto_createdAt := 1000 |}),
                   snd (api_snaps_post ex_jwt no_faults ex_env (ex_req "t1") ex_world))).
  { apply injective_projections; [vm_compute; reflexivity|reflexivity]. }
  split.
  - apply (proj2 (proj2 (uploaded_snap_lives_twelve_hours _ _ _ _ _ _ _
                           (fun _ => eq_refl) Hpost)
                    no_faults 43201000 eq_refl eq_refl eq_refl)).
    vm_compute. discriminate.
  - intros H.
    apply (proj1 (proj2 (uploaded_snap_lives_twelve_hours _ _ _ _ _ _ _
                           (fun _ => eq_refl) Hpost)
                    no_faults 43201001 eq_refl eq_refl eq_refl)) in H.
    vm_compute in H. by apply H.
Defined.



Lemma filter_filter_impl {A} (p q : A -> bool) (l : list A) :
  (forall x, q x = true -> p x = true) ->
  List.filter q (List.filter p l) = List.filter q l.
Proof.
  intros Hpq. induction l as [|a l IH]; simpl; [done|].
  destruct (p a) eqn:Hp; simpl.
  - by rewrite IH.
  - destruct (q a) eqn:Hq; [|done]. apply Hpq in Hq. congruence.
Qed.

(** X16.  Passes compose: a pass at [now1] followed by a pass at a later
    time [now2], both going through, leaves the snaps and the users that a
    single pass at [now2] leaves. *)
Theorem reaper_passes_compose :
  forall f1 f2 now1 now2 w,
    now1 <= now2 ->
    f1 SBegin = false -> f1 SDeleteExpired = false -> f1 SCommit = false ->
    f2 SBegin = false -> f2 SDeleteExpired = false -> f2 SCommit = false ->
    snaps (committed (snd (cleanupExpiredSnaps f2 now2
                             (snd (cleanupExpiredSnaps f1 now1 w)))))
      = snaps (committed (snd (cleanupExpiredSnaps f2 now2 w))) /\
    users (committed (snd (cleanupExpiredSnaps f2 now2
                             (snd (cleanupExpiredSnaps f1 now1 w)))))
      = users (committed (snd (cleanupExpiredSnaps f2 now2 w))).
Proof.
  intros f1 f2 now1 now2 w Hle HB1 HD1 HC1 HB2 HD2 HC2.
  rewrite (cleanup_run f1 now1 w) by done. simpl.
  rewrite !cleanup_run by done. simpl. split; [|done].
  apply filter_filter_impl. intros s. unfold stale.
  rewrite !negb_true_iff, !Z.ltb_ge. lia.
Qed.

Lemma reaper_passes_compose_witness :
  snaps (committed (snd (cleanupExpiredSnaps no_faults (ex_now + 12 * msPerHour)
                           (snd (cleanupExpiredSnaps no_faults ex_now ex_world2)))))
    = [].
Proof.
  refine (eq_trans (proj1 (reaper_passes_compose no_faults no_faults ex_now
                             (ex_now + 12 * msPerHour) ex_world2 _
                             eq_refl eq_refl eq_refl eq_refl eq_refl eq_refl)) _).
  - vm_compute. discriminate.
  - vm_compute. reflexivity.
Defined.

(** ** Keys and references along a run *)

Lemma NoDup_map_filter {A B} (f : A -> B) (p : A -> bool) (l : list A) :
  List.NoDup (map f l) -> List.NoDup (map f (List.filter p l)).
Proof.
  induction l as [|a l IH]; simpl; intros Hnd; [done|].
  apply List.NoDup_cons_iff in Hnd as [Ha Hnd].
  destruct (p a); simpl; [|by apply IH].
  apply List.NoDup_cons_iff. split; [|by apply IH].
  intros Hin. apply Ha. apply in_map_iff in Hin as (x & Hx & Hin).
  apply filter_In in Hin as [Hin _]. apply in_map_iff. eauto.
Qed.

Lemma NoDup_map_snoc {A B} (f : A -> B) (l : list A) (x : A) :
  (forall a, In a l -> f a <> f x) ->
  List.NoDup (map f l) -> List.NoDup (map f (l ++ [x])).
Proof.
  intros Hx Hnd. rewrite map_app. simpl.
  apply NoDup_ListNoDup, NoDup_app. rewrite NoDup_ListNoDup.
  split; [done|]. split; [|apply NoDup_singleton].
  intros y Hy Hy'. apply list_elem_of_singleton in Hy'. subst y.
  apply list_elem_of_In, in_map_iff in Hy as (a & Hfa & Ha).
  by apply (Hx a Ha).
Qed.

Lemma step_integrity jwt_verify w fo :
  integrity (committed w) -> integrity (committed (step jwt_verify w fo)).
Proof.
  intros (Hsid & Huid & Huname & Huemail & Hfk).
  destruct fo as [faults op]. destruct op; simpl; try done.
  - (* signup *)
    destruct (post_api_signup_committed faults username password email hashed id w)
      as [[_ ->]|[_ ->]]; [simpl|done].
    pose proof (api_signup_keys faults username password email
                  hashed id (committed w)) as Hs.
    simpl in Hs. destruct Hs as (Hn & He & Hi & [new Hnew] & _ & Hsnaps & _).
    repeat split; auto; rewrite ?Hsnaps; [done|].
    intros s Hs. destruct (Hfk s Hs) as (u & Hu & Hid).
    exists u. split; [|done]. rewrite Hnew. apply in_app_iff. by left.
  - (* upload *)
    destruct (authenticateToken jwt_verify req) eqn:Ha; [done|].
    unfold api_snaps_post. rewrite Ha.
    destruct (req_file req) as [file|] eqn:Hreq.
    2:{ simpl. rewrite multer_single_committed. done. }
    pose proof (upload_outcome jwt_verify faults env req file
                  (multer_single req payload w)) as Hout.
    destruct (upload_handler jwt_verify faults env req file
                (multer_single req payload w)) as [o w1].
    simpl in *. rewrite multer_single_committed in Hout.
    destruct Hout as [(token & userId & u & rest & data & _ & _ & Hrows & _ &
                       Hfresh & _ & _ & _ & _ & dto & _ & _ & Hdb & _)|[_ Hdb]];
      rewrite Hdb; [|done].
    destruct (tags_after_frame faults (new_id env)
                (upload_tags (default [] (req_body req !! "hashtags"))) 0
                (set_snaps (committed w)
                   (snaps (committed w) ++
                    [new_snap_row env req file userId data
                       (default [] (req_body req !! "hashtags"))
                       (setHours_plus12 (zone env) (app_now env))])))
      as [Hu Hs].
    unfold integrity. rewrite Hu, Hs. simpl.
    split; [|repeat split; try done].
    + apply NoDup_map_snoc; [|done]. simpl. intros a Ha'.
      rewrite existsb_false_iff in Hfresh. apply Hfresh in Ha'.
      by apply N.eqb_neq in Ha'.
    + intros s Hin. apply in_app_iff in Hin as [Hin|[<-|[]]]; [by apply Hfk|].
      exists u. simpl.
      assert (Hin : In u (List.filter (fun u => (u_id u =? userId)%N)
                            (users (committed w)))) by (rewrite Hrows; by left).
      apply filter_In in Hin as [Hin Hid]. apply N.eqb_eq in Hid. done.
  - (* cleanup *)
    destruct (cleanup_committed faults now w) as [-> | ->]; [|done].
    unfold integrity. simpl. split; [by apply NoDup_map_filter|].
    repeat split; try done.
    intros s Hs. apply filter_In in Hs as [Hs _]. by apply Hfk.
Qed.

(** X17.  The keys and the reference of the schema hold along every run:
    from tables in which snap ids, user ids, usernames and emails are
    pairwise distinct and every snap's owner is a row of [users], any
    sequence of requests and reaper passes, under any faults, leads to
    tables of which the same is true; the empty tables are such tables. *)
Theorem integrity_is_invariant :
  (forall jwt_verify trace w,
     integrity (committed w) -> integrity (committed (run jwt_verify trace w))) /\
  integrity (committed empty_world).
Proof.
  split.
  - intros jwt_verify trace. induction trace as [|fo trace IH]; intros w Hw.
    + done.
    + simpl. apply IH. by apply step_integrity.
  - unfold integrity. simpl. repeat split; try constructor. by intros ? [].
Qed.

Lemma integrity_is_invariant_witness :
  integrity (committed (run ex_jwt ex_trace empty_world)).
Proof.
  exact (proj1 integrity_is_invariant ex_jwt ex_trace empty_world
           (proj2 integrity_is_invariant)).
Defined.

(** ** The tags of an upload on the feed *)

Lemma tags_after_ext f1 f2 snapId tags : forall i d,
  (forall j, f1 (SInsertTag j) = f2 (SInsertTag j)) ->
  tags_after f1 snapId tags i d = tags_after f2 snapId tags i d.
Proof.
  induction tags as [|tag rest IH]; intros i d H; simpl; [done|].
  rewrite H. by apply IH.
Qed.

(** The piece of a string before its first comma. *)
Lemma cut_at_comma (t : js_string) :
  exists t1 t2, t = t1 ++ t2 /\ Forall (fun c => c <> comma) t1 /\
                (t2 = [] \/ exists r, t2 = comma :: r).
Proof.
  induction t as [|c t (t1 & t2 & -> & H1 & H2)].
  - exists [], []. repeat split; [constructor|by left].
  - destruct (N.eq_dec c comma) as [->|Hc].
    + exists [], (comma :: t1 ++ t2). repeat split; [constructor|]. right. eauto.
    + exists (c :: t1), t2. repeat split; [by constructor|done].
Qed.

(** Where the fallback finds a tag, the upload found one. *)
Lemma fallback_tag_has_upload_tag (hashtags t : js_string) :
  In t (fallback_tags hashtags) -> exists t', In t' (upload_tags hashtags).
Proof.
  unfold fallback_tags. rewrite filter_In. intros [Hin Hsharp].
  apply split_tokens in Hin; [|by apply startsWith_sharp_nonempty].
  destruct Hin as (pre & post & -> & Hfree & Hpre & Hpost).
  destruct (cut_at_comma t) as (t1 & t2 & -> & H1 & H2).
  destruct t1 as [|c t1].
  { destruct H2 as [->|[r ->]]; simpl in Hsharp; discriminate. }
  exists (c :: t1). apply upload_tags_tokens. split; [exact Hsharp|].
  exists pre, (t2 ++ post). split; [by rewrite <- !app_assoc|].
  unfold sep_free in *. apply Forall_app in Hfree as [Hfree _].
  split; [|split].
  - apply Forall_forall. intros x Hx. unfold is_space_or_comma.
    rewrite Forall_forall in Hfree, H1.
    rewrite (Hfree x Hx). simpl. apply N.eqb_neq. by apply H1.
  - destruct Hpre as [->|(p & x & -> & Hx)]; [by left|].
    right. exists p, x. split; [done|]. unfold is_space_or_comma. by rewrite Hx.
  - destruct H2 as [->|[r ->]].
    + destruct Hpost as [->|(x & p & -> & Hx)]; [by left|].
      right. exists x, p. split; [done|]. unfold is_space_or_comma. by rewrite Hx.
    + right. exists comma, (r ++ post). split; [done|].
      unfold is_space_or_comma. by rewrite N.eqb_refl, orb_true_r.
Qed.

(** X18.  A snap shows on the feed the tags its upload indexed.  After an
    upload answered 201 with no per-tag INSERT refused, into tables that held
    no tag row for the generated id, every feed response lists the new snap
    with exactly the tags that the upload's tokenizer found in the raw
    string, be it through the aggregated list or, when the string holds no
    tag, through the fallback. *)
Theorem feed_shows_the_uploaded_tags :
  forall jwt_verify faults env req w dto w',
    api_snaps_post jwt_verify faults env req w = (Some (Created dto), w') ->
    (forall i, faults (SInsertTag i) = false) ->
    (forall t, In t (snaps_hashtags (committed w)) -> fst t <> new_id env) ->
    forall f q_page q_limit items pg it,
      api_feed f q_page q_limit (committed w') (FeedOk items pg) ->
      In it items -> fi_id it = dto_id dto ->
      forall tag,
        In tag (fi_hashtag_list it) <->
        In tag (upload_tags (default [] (req_body req !! "hashtags"))).
Proof.
  intros jwt_verify faults env req w dto w' Hpost Hnf Hfk
         f q_page q_limit items pg it Hfeed Hit Hid tag.
  apply api_snaps_post_created_inv in Hpost
    as (file & token & userId & u & rest & data & _ & _ & _ & _ & _ & Hfresh &
        -> & ->).
  simpl in *.
  set (h := default [] (req_body req !! "hashtags")) in *.
  set (row := new_snap_row env req file userId data h
                (setHours_plus12 (zone env) (app_now env))) in *.
  rewrite (tags_after_ext faults no_faults) in Hfeed by (intros j; apply Hnf).
  set (d' := tags_after no_faults (new_id env) (upload_tags h) 0
               (set_snaps (committed w) (snaps (committed w) ++ [row]))) in *.
  assert (Hsnaps : snaps d' = snaps (committed w) ++ [row])
    by apply tags_after_frame.
  apply api_feed_ok_inv in Hfeed as (rows & Hrows & -> & _).
  apply in_map_iff in Hit as (s & <- & Hs).
  eapply snap_data_In in Hs; [|exact Hrows]. simpl in Hid.
  rewrite Hsnaps in Hs. apply in_app_iff in Hs as [Hs|[<-|[]]].
  { rewrite existsb_false_iff in Hfresh. apply Hfresh in Hs.
    apply N.eqb_neq in Hs. done. }
  simpl. fold h.
  assert (Hrowtags : forall r,
            In r (List.filter (fun r => (fst r =? new_id env)%N) (snaps_hashtags d'))
            <-> fst r = new_id env /\ In (snd r) (upload_tags h)).
  { intros r. rewrite filter_In, N.eqb_eq. subst d'. rewrite tags_after_In.
    simpl. split.
    - intros [[Hold|[_ ?]] Hr]; [by apply Hfk in Hold|done].
    - intros [Hr ?]. split; [|done]. right. done. }
  unfold agg_tags.
  change (s_id row) with (new_id env).
  destruct (List.filter (fun r : N * js_string => (fst r =? new_id env)%N)
              (snaps_hashtags d')) as [|r0 l] eqn:Hagg.
  - assert (Hnone : upload_tags h = []).
    { destruct (upload_tags h) as [|t0 ts] eqn:Hup; [done|].
      destruct (proj2 (Hrowtags (new_id env, t0))). { simpl. split; [done|by left]. } }
    rewrite Hnone. simpl. destruct (truthy h); [|done].
    destruct (fallback_tags h) as [|t0 ts] eqn:Hfb; [done|].
    destruct (fallback_tag_has_upload_tag h t0) as [t' Ht'].
    { rewrite Hfb. by left. }
    rewrite Hnone in Ht'. done.
  - unfold process_hashtag_list. rewrite in_map_iff. split.
    + intros (r & <- & Hr). by apply Hrowtags in Hr as [_ ?].
    + intros Htag. exists (new_id env, tag). split; [done|].
      by apply Hrowtags.
Qed.

Lemma feed_shows_the_uploaded_tags_witness :
  exists it,
    api_feed_exec no_faults None None
      (committed (snd (api_snaps_post ex_jwt no_faults ex_env (ex_req "t1") ex_world)))
      = FeedOk [it] (feed_pagination None None
          (committed (snd (api_snaps_post ex_jwt no_faults ex_env (ex_req "t1")
                            ex_world)))) /\
    (In (lit "#bar") (fi_hashtag_list it) <->
     In (lit "#bar") (upload_tags (lit "#foo, #bar  baz"))).
Proof.
  assert (Hpost : api_snaps_post ex_jwt no_faults ex_env (ex_req "t1") ex_world =
                  (Some (Created {| dto_id := 10%N; dto_username := lit "alice";
                                    dto_imageUrl := 10%N;
                                    dto_caption := Some (lit "hello");
                                    dto_location := []; dto_createdAt := 1000 |}),
                   snd (api_snaps_post ex_jwt no_faults ex_env (ex_req "t1") ex_world))).
  { apply injective_projections; [vm_compute; reflexivity|reflexivity]. }
  pose proof (api_feed_exec_admissible no_faults None None
                (committed (snd (api_snaps_post ex_jwt no_faults ex_env
                                   (ex_req "t1") ex_world)))) as Hadm.
  assert (Hexec : exists it,
            api_feed_exec no_faults None None
              (committed (snd (api_snaps_post ex_jwt no_faults ex_env (ex_req "t1")
                                 ex_world)))
            = FeedOk [it] (feed_pagination None None
                (committed (snd (api_snaps_post ex_jwt no_faults ex_env (ex_req "t1")
                                   ex_world)))) /\ fi_id it = 10%N).
  { eexists. split; [vm_compute; reflexivity|reflexivity]. }
  destruct Hexec as (it & Hexec & Hid). exists it. split; [exact Hexec|].
  rewrite Hexec in Hadm.
  exact (feed_shows_the_uploaded_tags _ _ _ _ _ _ _ Hpost (fun _ => eq_refl)
           (fun t (H : In t []) => match H with end)
           no_faults None None _ _ it Hadm (or_introl eq_refl) Hid (lit "#bar")).
Defined.

(** ** Schema initialisation *)

Lemma create_table_keeps name columns (c : Catalog) n cs :
  c !! n = Some cs -> create_table_if_not_exists name columns c !! n = Some cs.
Proof.
  intros H. unfold create_table_if_not_exists.
  destruct (c !! name) eqn:Hc; [done|].
  rewrite lookup_insert_ne; [done|]. intros ->. congruence.
Qed.

Lemma create_table_exists name columns (c : Catalog) :
  is_Some (create_table_if_not_exists name columns c !! name).
Proof.
  unfold create_table_if_not_exists.
  destruct (c !! name) eqn:Hc; [by rewrite Hc|]. by rewrite lookup_insert_eq.
Qed.

Lemma create_table_again name columns (c : Catalog) :
  is_Some (c !! name) -> create_table_if_not_exists name columns c = c.
Proof. intros [cs H]. unfold create_table_if_not_exists. by rewrite H. Qed.

Lemma snaps_after_users (c : Catalog) :
  create_table_if_not_exists "users" users_columns c !! "snaps" = c !! "snaps".
Proof.
  unfold create_table_if_not_exists. destruct (c !! "users"); [done|].
  by rewrite lookup_insert_ne.
Qed.

Lemma initDb_resolved faults (c : Catalog) :
  init_accepted faults c ->
  initDb faults c = (None, {| catalog := initialised c; pending := None |}).
Proof.
  intros (HB & HU & HS & HC & Href).
  pose proof (snaps_after_users c) as Hsn.
  unfold initDb, init_try, init_seq, init_begin, init_ddl, init_commit,
    create_users, create_snaps, initialised. simpl.
  rewrite HB. simpl. rewrite HU. simpl. rewrite HS. simpl.
  set (u := create_table_if_not_exists "users" users_columns c) in *.
  unfold create_table_if_not_exists.
  destruct (u !! "snaps") eqn:Hu; simpl.
  - by rewrite HC.
  - destruct Href as [[? Hc]|Href]; [congruence|]. rewrite Href. simpl.
    by rewrite HC.
Qed.

Lemma initDb_rejected faults (c : Catalog) :
  ~ init_accepted faults c ->
  exists e,
    fst (initDb faults c) = Some e /\
    catalog (snd (initDb faults c)) = c /\
    (faults IRollback = true -> e = IRollback) /\
    (faults IRollback = false ->
     e <> IRollback /\ pending (snd (initDb faults c)) = None).
Proof.
  intros Hno.
  pose proof (snaps_after_users c) as Hsn.
  unfold initDb, init_try, init_seq, init_begin, init_ddl, init_commit,
    init_rollback, create_users, create_snaps. simpl.
  destruct (faults IBegin) eqn:HB; simpl.
  { destruct (faults IRollback); simpl; eexists; by repeat split. }
  destruct (faults ICreateUsers) eqn:HU; simpl.
  { destruct (faults IRollback); simpl; eexists; by repeat split. }
  destruct (faults ICreateSnaps) eqn:HS; simpl.
  { destruct (faults IRollback); simpl; eexists; by repeat split. }
  set (u := create_table_if_not_exists "users" users_columns c) in *.
  destruct (faults ICommit) eqn:HC.
  { destruct (u !! "snaps"); simpl; [|destruct (references_users_id u); simpl];
      rewrite ?HC; simpl;
      destruct (faults IRollback); simpl; eexists; by repeat split. }
  destruct (u !! "snaps") eqn:Hu; simpl.
  { exfalso. apply Hno. repeat split; try done. left. rewrite <- Hsn. eauto. }
  destruct (references_users_id u) eqn:Href; simpl.
  { exfalso. apply Hno. repeat split; try done. by right. }
  destruct (faults IRollback); simpl; eexists; by repeat split.
Qed.

Lemma init_accepted_dec faults (c : Catalog) :
  init_accepted faults c \/ ~ init_accepted faults c.
Proof.
  unfold init_accepted.
  destruct (faults IBegin), (faults ICreateUsers), (faults ICreateSnaps),
    (faults ICommit); try (right; intros (? & ? & ? & ? & _); done).
  destruct (c !! "snaps") eqn:Hsn; [left; by repeat split; eauto|].
  destruct (references_users_id _) eqn:Href; [left; by repeat split; eauto|].
  right. intros (_ & _ & _ & _ & [[? ?]|?]); congruence.
Qed.

Lemma initialised_keeps (c : Catalog) n cs :
  c !! n = Some cs -> initialised c !! n = Some cs.
Proof. intros H. unfold initialised. by do 2 apply create_table_keeps. Qed.

Lemma initialised_tables (c : Catalog) :
  is_Some (initialised c !! "users") /\ is_Some (initialised c !! "snaps").
Proof.
  unfold initialised. split; [|apply create_table_exists].
  destruct (create_table_exists "users" users_columns c) as [cs H].
  exists cs. by apply create_table_keeps.
Qed.

Lemma initialised_again (c : Catalog) :
  is_Some (c !! "users") -> is_Some (c !! "snaps") -> initialised c = c.
Proof.
  intros Hu Hs. unfold initialised.
  rewrite (create_table_again "users") by done. by apply create_table_again.
Qed.

(** X19.  [initDb] creates [users] and [snaps] together or not at all.  The
    promise resolves exactly when BEGIN, the two CREATE TABLE statements and
    COMMIT are accepted and, where [snaps] has to be created, the [users]
    table of the transaction has a key [id] of type UUID for the foreign key
    to reference; the committed catalog is then the old one with each of
    the two tables created unless a table of its name was there, and the
    transaction is closed.  Otherwise the catalog is as it was, the promise
    rejects with the error of ROLLBACK when ROLLBACK is refused too, and
    with the error of the [try] block and the transaction closed when
    ROLLBACK goes through.  A table that exists is never altered, and once a
    run has resolved, a later run leaves the catalog as it is whatever is
    refused. *)
Theorem initDb_is_atomic_and_idempotent :
  forall faults (c : Catalog),
    let r := initDb faults c in
    (fst r = None <->
     faults IBegin = false /\ faults ICreateUsers = false /\
     faults ICreateSnaps = false /\ faults ICommit = false /\
     (is_Some (c !! "snaps") \/
      references_users_id (create_table_if_not_exists "users" users_columns c)
        = true)) /\
    (fst r = None ->
     catalog (snd r) =
       create_table_if_not_exists "snaps" snaps_columns
         (create_table_if_not_exists "users" users_columns c) /\
     pending (snd r) = None /\
     is_Some (catalog (snd r) !! "users") /\
     is_Some (catalog (snd r) !! "snaps") /\
     forall faults2,
       catalog (snd (initDb faults2 (catalog (snd r)))) = catalog (snd r)) /\
    (forall e, fst r = Some e ->
       catalog (snd r) = c /\
       (faults IRollback = true -> e = IRollback) /\
       (faults IRollback = false -> e <> IRollback /\ pending (snd r) = None)) /\
    (forall n cs, c !! n = Some cs -> catalog (snd r) !! n = Some cs).
Proof.
  intros faults c. simpl.
  assert (Hagain : forall faults2 (c0 : Catalog),
            is_Some (c0 !! "users") -> is_Some (c0 !! "snaps") ->
            catalog (snd (initDb faults2 c0)) = c0).
  { intros faults2 c0 Hu Hs.
    destruct (init_accepted_dec faults2 c0) as [Hyes|Hno].
    - rewrite (initDb_resolved _ _ Hyes). simpl. by apply initialised_again.
    - by destruct (initDb_rejected _ _ Hno) as (e & _ & -> & _). }
  destruct (init_accepted_dec faults c) as [Hyes|Hno].
  - rewrite (initDb_resolved _ _ Hyes). simpl.
    destruct (initialised_tables c) as [Hu Hs].
    split; [split; [intros _; exact Hyes|done]|].
    split; [|split; [done|]].
    + intros _. split; [reflexivity|]. split; [done|]. split; [done|].
      split; [done|]. intros faults2. by apply Hagain.
    + intros n cs. apply initialised_keeps.
  - destruct (initDb_rejected _ _ Hno) as (e & He & Hc & HR1 & HR2).
    rewrite He, Hc.
    split; [split; [done|intros H; by apply Hno in H]|].
    split; [done|]. split; [|done].
    intros e' [= <-]. done.
Qed.

(** On a database whose [users] table is keyed by a serial number the
    initialisation rejects at the CREATE TABLE of [snaps] and creates
    nothing; on an empty database it creates both tables. *)
Lemma initDb_is_atomic_and_idempotent_witness :
  fst (initDb (fun _ => false) ex_legacy_catalog) = Some ICreateSnaps /\
  catalog (snd (initDb (fun _ => false) ex_legacy_catalog)) = ex_legacy_catalog /\
  catalog (snd (initDb (fun _ => false) ∅)) !! "snaps" = Some snaps_columns.
Proof.
  destruct (initDb_is_atomic_and_idempotent (fun _ => false) ex_legacy_catalog)
    as (_ & _ & Hrej & _).
  destruct (initDb_is_atomic_and_idempotent (fun _ => false) ∅)
    as (_ & Hres & _ & _).
  split; [vm_compute; reflexivity|]. split.
  - exact (proj1 (Hrej ICreateSnaps ltac:(vm_compute; reflexivity))).
  - rewrite (proj1 (Hres ltac:(vm_compute; reflexivity))). reflexivity.
Defined.

(** ** The two tokenizers on comma-free strings *)

Lemma fallback_tags_comma_free_witness :
  fallback_tags (lit "#foo  #bar baz") = upload_tags (lit "#foo  #bar baz").
Proof.
  apply fallback_tags_comma_free. repeat constructor; discriminate.
Defined.

(** ** The joins of the read routes *)

(** X20.  Over tables that respect the keys, a feed response lists no snap
    twice, every item is a stored snap with the username and the avatar of
    its owner, and the single-snap route answers the id of an item with the
    same caption, raw hashtags, location, creation time, username and
    avatar. *)
Theorem feed_items_match_the_single_snap_route :
  forall f q_page q_limit d items pg,
    integrity d ->
    api_feed f q_page q_limit d (FeedOk items pg) ->
    List.NoDup (map fi_id items) /\
    forall it, In it items ->
      exists s u,
        In s (snaps d) /\ In u (users d) /\ u_id u = s_user_id s /\
        fi_id it = s_id s /\
        fi_user_id it = Some (u_id u) /\
        fi_username it = Some (u_username u) /\
        fi_profile_picture_url it = u_profile_picture_url u /\
        forall f', f' SSelectSnap = false ->
          exists v,
            api_snaps_get f' (Some (fi_id it)) d = SnapOk v /\
            sv_id v = fi_id it /\ sv_caption v = fi_caption it /\
            sv_hashtags v = fi_hashtags it /\ sv_location v = fi_location it /\
            sv_createdAt v = fi_created_at it /\
            Some (sv_username v) = fi_username it /\
            sv_profilePictureUrl v = fi_profile_picture_url it.
Proof.
  intros f q_page q_limit d items pg (Hsid & Huid & _ & _ & Hfk) Hfeed.
  apply api_feed_ok_inv in Hfeed as (rows & Hrows & -> & _).
  split.
  - rewrite map_map. simpl.
    destruct Hrows as (l & Hp & _ & ->).
    assert (Hl : List.NoDup (map s_id l)).
    { apply NoDup_ListNoDup. rewrite Hp. by apply NoDup_ListNoDup. }
    rewrite <- firstn_map, <- skipn_map.
    apply NoDup_ListNoDup. apply NoDup_ListNoDup in Hl.
    eapply sublist_NoDup; [exact Hl|].
    etransitivity; [apply sublist_take|apply sublist_drop].
  - intros it Hit. apply in_map_iff in Hit as (s & <- & Hs).
    eapply snap_data_In in Hs; [|exact Hrows].
    destruct (Hfk s Hs) as (u & Hu & Hid).
    assert (Hfind : List.find (fun u' => (u_id u' =? s_user_id s)%N) (users d)
                    = Some u).
    { rewrite <- Hid. by apply (find_key_unique u_id). }
    exists s, u. unfold feed_item. rewrite Hfind. simpl.
    repeat split; try done.
    intros f' Hf'. unfold api_snaps_get, select_snap. rewrite Hf'.
    rewrite (filter_key_unique s_id) by done. simpl.
    unfold join_users. rewrite <- Hid, (filter_key_unique u_id) by done.
    simpl. eexists. split; [reflexivity|]. by repeat split.
Qed.

Lemma feed_items_match_the_single_snap_route_witness :
  List.NoDup (map fi_id (map (feed_item ex_db3) (snap_data_exec ex_db3 10 0))).
Proof.
  assert (Hint : integrity ex_db3).
  { unfold integrity. simpl.
    split; [|split; [|split; [|split]]];
      try (apply NoDup_ListNoDup, (bool_decide_unpack _); vm_compute; exact I).
    intros s Hs. exists ex_alice. split; [by left|].
    destruct Hs as [<-|[<-|[<-|[]]]]; reflexivity. }
  exact (proj1 (feed_items_match_the_single_snap_route no_faults None None ex_db3
                  _ _ Hint (api_feed_exec_admissible no_faults None None ex_db3))).
Defined.
